(** * Shape and coordinate bookkeeping of the dedalus domain layer

    A shallow embedding of [dedalus/core/spaces.py] and
    [dedalus/core/domain.py]: the affine change of variables [AffineCOV],
    the space classes ([Constant], [PeriodicInterval], [ParityInterval],
    [FiniteInterval]) and the [Domain] built from them.

    Numbers.  Python [int]s are [Z].  Python [float]s are modelled by exact
    rationals [Q]; numeric equality ([==] in Python) is [Qeq].  Every
    property below that mentions coordinates is therefore a statement
    under exact arithmetic.  Grid sizes are different: they are integers
    cut out of a float product by [int], where one unit of rounding
    changes the answer, so the product of a float scale and a size is
    rounded to binary64 as the machine does ([round_binary64]).  Bounds
    are Python [int]s or [float]s unless said otherwise; numpy scalars,
    whose division does not raise, have their own constructor
    ([AffineCOV.init_numpy]). *)

From Stdlib Require Import ZArith QArith Qround Qpower String List Lia Lqa Permutation Field Qfield.
From stdpp Require Import base decidable option list gmap strings.
Import ListNotations.

Open Scope Z_scope.

(** ** Python values and exceptions *)

Module Py.

(** The exceptions the modelled code can raise.  The last two stand for
    failures of the distributor and of [unify_attributes], whose sources
    are not part of the modelled files. *)
Inductive exn : Type :=
| ValueError (msg : string)
| ZeroDivisionError
| IndexError
| NotImplementedError
| AttributeMismatchError
| InvalidScaleError
| OverflowError.

Inductive result (A : Type) : Type :=
| Ok (a : A)
| Raise (e : exn).
Global Arguments Ok {A} a.
Global Arguments Raise {A} e.

Global Instance result_ret : MRet result := fun A a => Ok a.
Global Instance result_bind : MBind result := fun A B f m =>
  match m with
  | Ok a => f a
  | Raise e => Raise e
  end.

(** [for x in xs: acc = body acc x], stopping at the first exception. *)
Fixpoint for_each {A S : Type} (body : S -> A -> result S) (xs : list A) (acc : S)
  : result S :=
  match xs with
  | [] => Ok acc
  | x :: rest => acc' ← body acc x; for_each body rest acc'
  end.

(** [x / y] on Python's own numbers, [int] and [float]: a zero divisor
    raises.  (The division of numpy scalars is [np_div] below.) *)
Definition div (x y : Q) : result Q :=
  if Qeq_bool y 0 then Raise ZeroDivisionError else Ok (x / y)%Q.

(** [int(x)] on a float: truncation toward zero. *)
Definition int (x : Q) : Z := Z.quot (Qnum x) (Z.pos (Qden x)).

(** A value of [numpy.float64] under exact arithmetic: a finite number, an
    infinity, or nan. *)
Inductive float64 : Type :=
| Fin (x : Q)
| Inf (negative : bool)
| NaN.

(** [x / y] where an operand is a finite [numpy.float64] scalar: a zero
    divisor does not raise, numpy warns and returns an infinity with the
    sign of the dividend, or nan for [0 / 0].  The zero divisor is taken to
    be [+0.0], which is what the difference of two equal numbers is. *)
Definition np_div (x y : Q) : float64 :=
  if Qeq_bool y 0 then
    if Qeq_bool x 0 then NaN else Inf (Qle_bool x 0)
  else Fin (x / y)%Q.

(** A Python number where the code may be given either kind: an [int], or
    a [float] given by its value, a binary64 number. *)
Inductive number : Type :=
| PyInt (n : Z)
| PyFloat (x : Q).

(** An integer literal in the place of a number is a Python [int]. *)
Coercion PyInt : Z >-> number.

Definition number_val (s : number) : Q :=
  match s with
  | PyInt n => inject_Z n
  | PyFloat x => x
  end.

(** The integer nearest to [num / den], for [den > 0], a tie going to the
    even neighbour. *)
Definition round_half_even (num den : Z) : Z :=
  let m := num / den in
  match 2 * (num mod den) ?= den with
  | Lt => m
  | Gt => m + 1
  | Eq => if Z.even m then m else m + 1
  end.

(** The exponent [k] with [2^k <= a / d < 2^(k+1)], for positive [a], [d]. *)
Definition floor_log2 (a d : Z) : Z :=
  let k := Z.log2 a - Z.log2 d in
  let reached := if 0 <=? k then d * 2 ^ k <=? a else d <=? a * 2 ^ (- k) in
  if reached then k else k - 1.

(** The binary64 number nearest to a rational, a tie going to the even
    significand: 53 significant bits, least exponent -1074.  [None] stands
    for an infinity, when the rounded magnitude reaches [2^1024]. *)
Definition round_binary64 (q : Q) : option Q :=
  let a := Z.abs (Qnum q) in
  let d := Z.pos (Qden q) in
  if a =? 0 then Some 0%Q
  else
    let e := Z.max (floor_log2 a d - 52) (-1074) in
    let m := if 0 <=? e then round_half_even a (d * 2 ^ e)
             else round_half_even (a * 2 ^ (- e)) d in
    if (0 <=? e) && (2 ^ 1024 <=? m * 2 ^ e) then None
    else Some (inject_Z (Z.sgn (Qnum q) * m) * 2 ^ e)%Q.

(** [float(n)] on an [int], as the float product converts its [int]
    operand: an [int] too large for a float raises. *)
Definition float_of_int (n : Z) : result Q :=
  match round_binary64 (inject_Z n) with
  | Some y => Ok y
  | None => Raise OverflowError
  end.

(** [x * y] on two floats; the product may be an infinity. *)
Definition float_mul (x y : Q) : option Q := round_binary64 (x * y).

(** [int(x)] on a float that may be an infinity, which raises. *)
Definition int_of_float (x : option Q) : result Z :=
  match x with
  | Some v => Ok (int v)
  | None => Raise OverflowError
  end.

(** [int(s * n)] for a number [s] and an [int] [n]: the product of two
    [int]s is exact and [int] leaves it as it is; a float [s] makes the
    product a float product. *)
Definition int_of_product (s : number) (n : Z) : result Z :=
  match s with
  | PyInt k => Ok (k * n)
  | PyFloat x => y ← float_of_int n; int_of_float (float_mul x y)
  end.

(** Position denoted by index [i] in a sequence of length [len]:
    negative indices count from the end. *)
Definition position (len : nat) (i : Z) : option nat :=
  if (0 <=? i) && (i <? Z.of_nat len) then Some (Z.to_nat i)
  else if (i <? 0) && (- Z.of_nat len <=? i) then Some (Z.to_nat (Z.of_nat len + i))
  else None.

(** [xs[i]] *)
Definition getitem {A : Type} (xs : list A) (i : Z) : result A :=
  match position (length xs) i with
  | Some p => match xs !! p with Some x => Ok x | None => Raise IndexError end
  | None => Raise IndexError
  end.

(** [xs[i] = v] *)
Definition setitem {A : Type} (xs : list A) (i : Z) (v : A) : result (list A) :=
  match position (length xs) i with
  | Some p => Ok (<[p := v]> xs)
  | None => Raise IndexError
  end.

(** Clamping of one bound of a slice. *)
Definition slice_bound (len : nat) (i : Z) : nat :=
  if i <? 0 then Z.to_nat (Z.max (Z.of_nat len + i) 0)
  else Z.to_nat (Z.min i (Z.of_nat len)).

(** [xs[start:stop]] *)
Definition slice {A : Type} (xs : list A) (start stop : Z) : list A :=
  let lo := slice_bound (length xs) start in
  let hi := slice_bound (length xs) stop in
  take (hi - lo) (drop lo xs).

(** [enumerate(xs)] *)
Definition enumerate {A : Type} (xs : list A) : list (Z * A) :=
  zip (map Z.of_nat (seq 0 (length xs))) xs.

End Py.
Import Py.

Global Instance Q_eq_dec : EqDecision Q.
Proof. solve_decision. Defined.

Global Instance exn_eq_dec : EqDecision exn.
Proof. solve_decision. Defined.

(** [np.pi]: the binary64 number nearest to the circle constant,
    [0x400921FB54442D18]. *)
Definition np_pi : Q := 884279719003555 # 281474976710656.

(** ** AffineCOV *)

(** Argument of the coordinate maps: a string token, a number, or an array
    of numbers. *)
Inductive coord : Type :=
| CStr (s : string)
| CNum (x : Q)
| CArr (xs : list Q).

(** What the coordinate maps return; [VNone] is Python's [None]. *)
Inductive coord_val : Type :=
| VNone
| VNum (x : Q)
| VArr (xs : list Q).

Module AffineCOV.

Record t : Type := Build {
  native_bounds : Q * Q;
  problem_bounds : Q * Q;
  native_left : Q;
  native_right : Q;
  native_length : Q;
  problem_left : Q;
  problem_right : Q;
  problem_length : Q;
  jacobian : Q;
  problem_center : Q;
  native_center : Q;
  stretch : Q
}.

(** [AffineCOV.__init__], on bounds that are Python [int]s or [float]s. *)
Definition init (native_bounds0 problem_bounds0 : Q * Q) : result t :=
  let '(native_left0, native_right0) := native_bounds0 in
  let native_length0 := (native_right0 - native_left0)%Q in
  let '(problem_left0, problem_right0) := problem_bounds0 in
  let problem_length0 := (problem_right0 - problem_left0)%Q in
  jacobian0 ← div native_length0 problem_length0;
  let problem_center0 := ((problem_left0 + problem_right0) / 2)%Q in
  let native_center0 := ((native_left0 + native_right0) / 2)%Q in
  stretch0 ← div problem_length0 native_length0;
  Ok (Build native_bounds0 problem_bounds0
            native_left0 native_right0 native_length0
            problem_left0 problem_right0 problem_length0
            jacobian0 problem_center0 native_center0 stretch0).

(** The numeric branch of [problem_coord], for one number. *)
Definition to_problem (self : t) (x : Q) : result Q :=
  neutral_coord ← div (x - native_left self) (native_length self);
  Ok (problem_left self + neutral_coord * problem_length self)%Q.

(** The numeric branch of [native_coord], for one number. *)
Definition to_native (self : t) (x : Q) : result Q :=
  neutral_coord ← div (x - problem_left self) (problem_length self);
  Ok (native_left self + neutral_coord * native_length self)%Q.

(** [AffineCOV.problem_coord].  An array argument is mapped element by
    element, as numpy broadcasting does; on a map returned by [init] the
    native length is not zero, so no division of the array branch fails. *)
Definition problem_coord (self : t) (native_coord : coord) : result coord_val :=
  match native_coord with
  | CStr s =>
      if String.eqb s "left" then Ok (VNum (problem_left self))
      else if String.eqb s "right" then Ok (VNum (problem_right self))
      else if String.eqb s "center" then Ok (VNum (problem_center self))
      else Ok VNone
  | CNum x => y ← to_problem self x; Ok (VNum y)
  | CArr xs => ys ← mapM (to_problem self) xs; Ok (VArr ys)
  end.

(** [AffineCOV.native_coord] *)
Definition native_coord (self : t) (problem_coord : coord) : result coord_val :=
  match problem_coord with
  | CStr s =>
      if String.eqb s "left" then Ok (VNum (native_left self))
      else if String.eqb s "right" then Ok (VNum (native_right self))
      else if String.eqb s "center" then Ok (VNum (native_center self))
      else Ok VNone
  | CNum x => y ← to_native self x; Ok (VNum y)
  | CArr xs => ys ← mapM (to_native self) xs; Ok (VArr ys)
  end.

(** [AffineCOV.native_jacobian] *)
Definition native_jacobian (self : t) (problem_coord : coord) : result Q :=
  div (native_length self) (problem_length self).

(** The attributes [__init__] stores when a bound is a [numpy.float64]
    scalar: the two quotients are then numpy scalars, which may be
    infinite or nan. *)
Record t_numpy : Type := Build_numpy {
  np_native_bounds : Q * Q;
  np_problem_bounds : Q * Q;
  np_native_left : Q;
  np_native_right : Q;
  np_native_length : Q;
  np_problem_left : Q;
  np_problem_right : Q;
  np_problem_length : Q;
  np_jacobian : float64;
  np_problem_center : Q;
  np_native_center : Q;
  np_stretch : float64
}.

(** [AffineCOV.__init__] when at least one of the four bounds is a finite
    [numpy.float64] scalar: one of the two lengths is then a numpy scalar,
    so both divisions are numpy's and nothing raises. *)
Definition init_numpy (native_bounds0 problem_bounds0 : Q * Q) : t_numpy :=
  let '(native_left0, native_right0) := native_bounds0 in
  let native_length0 := (native_right0 - native_left0)%Q in
  let '(problem_left0, problem_right0) := problem_bounds0 in
  let problem_length0 := (problem_right0 - problem_left0)%Q in
  let jacobian0 := np_div native_length0 problem_length0 in
  let problem_center0 := ((problem_left0 + problem_right0) / 2)%Q in
  let native_center0 := ((native_left0 + native_right0) / 2)%Q in
  let stretch0 := np_div problem_length0 native_length0 in
  Build_numpy native_bounds0 problem_bounds0
              native_left0 native_right0 native_length0
              problem_left0 problem_right0 problem_length0
              jacobian0 problem_center0 native_center0 stretch0.

End AffineCOV.


(** ** Distributor *)

(** Modelled from the spec: the distributor class is an external
    collaborator whose source is not among the modelled files.  It supplies
    [dim], the total axis count, and is compared by identity
    ([dist_ident]). *)
Record Distributor : Type := {
  dist_ident : nat;
  dim : nat
}.

Global Instance Distributor_eq_dec : EqDecision Distributor.
Proof. solve_decision. Defined.

(** A caller-supplied scale argument: a single scalar applied to all axes,
    or an explicit per-axis sequence. *)
Inductive scales_arg : Type :=
| ScalesScalar (s : number)
| ScalesSeq (ss : list number).

(** Modelled from the spec: [Distributor.remedy_scales] normalizes a scale
    argument into a fully specified per-axis tuple of positive numbers of
    length [dim], and rejects anything else.  The [None] form, whose value
    the specification does not fix, is left out. *)
Definition remedy_scales (dist : Distributor) (scales : scales_arg)
  : result (list number) :=
  let ss := match scales with
            | ScalesScalar s => replicate (dim dist) s
            | ScalesSeq ss => ss
            end in
  if bool_decide (length ss = dim dist)
     && forallb (fun s => negb (Qle_bool (number_val s) 0)) ss
  then Ok ss
  else Raise InvalidScaleError.

(** ** Spaces *)

(** The three subclasses of [Interval], with their class attributes. *)
Inductive interval_class : Type := Periodic | Parity | Finite.

Definition native_bounds (cls : interval_class) : Q * Q :=
  match cls with
  | Periodic => (0, 2 * np_pi)%Q
  | Parity => (0, np_pi)%Q
  | Finite => (-1, 1)%Q
  end.

Definition class_group_shape (cls : interval_class) : list Z :=
  match cls with
  | Periodic => [2]
  | Parity => [1]
  | Finite => [1]
  end.

(** The attributes [Interval.__init__] stores on the instance. *)
Record Interval : Type := {
  name : string;
  size : Z;
  shape : list Z;
  bounds : Q * Q;
  dist : Distributor;
  axis : Z;
  axes : list Z;
  dealias : Q;
  COV : AffineCOV.t
}.

(** A space object: one constructor per concrete class, carrying the
    instance attributes set by that class's [__init__]. *)
Inductive Space : Type :=
| Constant (dist : Distributor) (axes : list Z)
| PeriodicInterval (base : Interval) (kmax : Z)
| ParityInterval (base : Interval) (kmax : Z)
| FiniteInterval (base : Interval) (a b : Q).

Global Instance AffineCOV_eq_dec : EqDecision AffineCOV.t.
Proof. solve_decision. Defined.

Global Instance Interval_eq_dec : EqDecision Interval.
Proof. solve_decision. Defined.

Global Instance Space_eq_dec : EqDecision Space.
Proof. solve_decision. Defined.

(** Attribute access, resolved through the class where the attribute is a
    class attribute. *)
Definition Space_dist (self : Space) : Distributor :=
  match self with
  | Constant d _ => d
  | PeriodicInterval b _ | ParityInterval b _ | FiniteInterval b _ _ => dist b
  end.

Definition Space_axes (self : Space) : list Z :=
  match self with
  | Constant _ ax => ax
  | PeriodicInterval b _ | ParityInterval b _ | FiniteInterval b _ _ => axes b
  end.

Definition Space_group_shape (self : Space) : list Z :=
  match self with
  | Constant _ _ => [1]
  | PeriodicInterval _ _ => class_group_shape Periodic
  | ParityInterval _ _ => class_group_shape Parity
  | FiniteInterval _ _ _ => class_group_shape Finite
  end.

Definition Space_shape (self : Space) : list Z :=
  match self with
  | Constant _ _ => [1]
  | PeriodicInterval b _ | ParityInterval b _ | FiniteInterval b _ _ => shape b
  end.

Definition Space_dealias (self : Space) : Q :=
  match self with
  | Constant _ _ => 1%Q
  | PeriodicInterval b _ | ParityInterval b _ | FiniteInterval b _ _ => dealias b
  end.

Definition Space_constant (self : Space) : bool :=
  match self with
  | Constant _ _ => true
  | _ => false
  end.

(** The class attribute [dim = 1] of [Constant] and of [Interval]. *)
Definition Space_dim (self : Space) : Z := 1.

Definition Interval_dim : Z := 1.

(** [Space.check_shape], a class method: [cls.group_shape] is passed in. *)
Definition check_shape (group_shape space_shape : list Z) : result unit :=
  for_each (fun (_ : unit) '(ss, gs) =>
              if gs =? 0 then Raise ZeroDivisionError
              else if negb (ss mod gs =? 0)
                   then Raise (ValueError "Space shape must be multiple of group shape.")
                   else Ok tt)
           (zip space_shape group_shape) tt.

(** [Constant.__init__] *)
Definition Constant_init (dist0 : Distributor) (axis0 : Z) : Space :=
  Constant dist0 [axis0].

(** [Interval.__init__], run for the subclass [cls], on bounds that are
    Python [int]s or [float]s. *)
Definition Interval_init (cls : interval_class) (name0 : string) (size0 : Z)
    (bounds0 : Q * Q) (dist0 : Distributor) (axis0 : Z) (dealias0 : Q)
  : result Interval :=
  let shape0 := [size0] in
  _ ← check_shape (class_group_shape cls) shape0;
  cov ← AffineCOV.init (native_bounds cls) bounds0;
  Ok {| name := name0; size := size0; shape := shape0; bounds := bounds0;
        dist := dist0; axis := axis0; axes := [axis0]; dealias := dealias0;
        COV := cov |}.

(** [PeriodicInterval.__init__]; [//] is floor division. *)
Definition PeriodicInterval_init (name0 : string) (size0 : Z) (bounds0 : Q * Q)
    (dist0 : Distributor) (axis0 : Z) (dealias0 : Q) : result Space :=
  base ← Interval_init Periodic name0 size0 bounds0 dist0 axis0 dealias0;
  let kmax := (size base - 1) / 2 in
  Ok (PeriodicInterval base kmax).

(** [ParityInterval.__init__] *)
Definition ParityInterval_init (name0 : string) (size0 : Z) (bounds0 : Q * Q)
    (dist0 : Distributor) (axis0 : Z) (dealias0 : Q) : result Space :=
  base ← Interval_init Parity name0 size0 bounds0 dist0 axis0 dealias0;
  let kmax := size base - 1 in
  Ok (ParityInterval base kmax).

(** [FiniteInterval.__init__] *)
Definition FiniteInterval_init (a b : Q) (name0 : string) (size0 : Z)
    (bounds0 : Q * Q) (dist0 : Distributor) (axis0 : Z) (dealias0 : Q)
  : result Space :=
  base ← Interval_init Finite name0 size0 bounds0 dist0 axis0 dealias0;
  Ok (FiniteInterval base a b).

(** [Space.grid_shape], inherited by the interval classes: each entry is
    [int(s * n)], the product of a float scale being the binary64 one. *)
Definition Interval_grid_shape (self : Interval) (scales : scales_arg)
  : result (list Z) :=
  scales' ← remedy_scales (dist self) scales;
  let subscales := slice scales' (axis self) (axis self + Interval_dim) in
  mapM (fun '(s, n) => int_of_product s n) (zip subscales (shape self)).

(** [grid_shape], dispatched on the class; [Constant.grid_shape] returns
    [self.shape] whatever the scale. *)
Definition Space_grid_shape (self : Space) (scales : scales_arg) : result (list Z) :=
  match self with
  | Constant _ _ => Ok [1]
  | PeriodicInterval b _ | ParityInterval b _ | FiniteInterval b _ _ =>
      Interval_grid_shape b scales
  end.

(** [np.arange(N)] *)
Definition arange (N : Z) : list Q :=
  map (fun i => inject_Z (Z.of_nat i)) (seq 0 (Z.to_nat N)).

(** What [grids] returns: a tuple of values, or one value not wrapped in a
    tuple. *)
Inductive grids_val : Type :=
| GTuple (items : list coord_val)
| GBare (item : coord_val).

(** [native_grid] of [PeriodicInterval.grids]. *)
Definition Periodic_native_grid (N : Z) : list Q :=
  map (fun i => 2 * np_pi * i / inject_Z N)%Q (arange N).

(** [native_grid] of [ParityInterval.grids]. *)
Definition Parity_native_grid (N : Z) : list Q :=
  map (fun i => np_pi * (i + 1 / 2) / inject_Z N)%Q (arange N).

Section Grids.

(** [jacobi.build_grid] of the quadrature collaborator. *)
Variable build_grid : Z -> Q -> Q -> list Q.

(** [Constant.grids] *)
Definition Constant_grids (scales : scales_arg) : result grids_val :=
  Ok (GTuple [VArr [0%Q]]).

(** [PeriodicInterval.grids] *)
Definition PeriodicInterval_grids (self : Interval) (scales : scales_arg)
  : result grids_val :=
  gshape ← Interval_grid_shape self scales;
  N ← getitem gshape 0;
  let native_grid := Periodic_native_grid N in
  g ← AffineCOV.problem_coord (COV self) (CArr native_grid);
  Ok (GTuple [g]).

(** [ParityInterval.grids] *)
Definition ParityInterval_grids (self : Interval) (scales : scales_arg)
  : result grids_val :=
  gshape ← Interval_grid_shape self scales;
  N ← getitem gshape 0;
  let native_grid := Parity_native_grid N in
  g ← AffineCOV.problem_coord (COV self) (CArr native_grid);
  Ok (GTuple [g]).

(** [FiniteInterval.grids] *)
Definition FiniteInterval_grids (self : Interval) (a b : Q) (scales : scales_arg)
  : result grids_val :=
  gshape ← Interval_grid_shape self scales;
  N ← getitem gshape 0;
  let native_grid := build_grid N a b in
  g ← AffineCOV.problem_coord (COV self) (CArr native_grid);
  Ok (GBare g).

(** [grids], dispatched on the class. *)
Definition Space_grids (self : Space) (scales : scales_arg) : result grids_val :=
  match self with
  | Constant _ _ => Constant_grids scales
  | PeriodicInterval b _ => PeriodicInterval_grids b scales
  | ParityInterval b _ => ParityInterval_grids b scales
  | FiniteInterval b a0 b0 => FiniteInterval_grids b a0 b0 scales
  end.

End Grids.


(** ** Domain *)

(** Modelled from the spec: [Distributor.constant_spaces], the ordered
    sequence of default constant spaces, one per axis. *)
Definition constant_spaces (dist0 : Distributor) : list Space :=
  map (fun i => Constant_init dist0 (Z.of_nat i)) (seq 0 (dim dist0)).

(** Modelled from the spec: [unify_attributes(spaces, 'dist')] of
    [tools.general] returns the distributor the spaces share, and fails when
    they do not share one. *)
Definition unify_dist (spaces : list Space) : result Distributor :=
  match spaces with
  | [] => Raise AttributeMismatchError
  | s :: rest =>
      if forallb (fun s' => bool_decide (Space_dist s' = Space_dist s)) rest
      then Ok (Space_dist s)
      else Raise AttributeMismatchError
  end.

(** [set.intersection] applied to an unpacked list of at least one set. *)
Definition set_intersection (sets : list (gset Z)) : gset Z :=
  match sets with
  | [] => ∅
  | s :: rest => foldl (∩) s rest
  end.

(** [full_spaces[axis] = space] for every axis of [space]. *)
Definition place_space (full_spaces : list Space) (space : Space)
  : result (list Space) :=
  for_each (fun full axis0 => setitem full axis0 space) (Space_axes space) full_spaces.

(** [expand_spaces] *)
Definition expand_spaces (spaces : list Space) : result (list Space) :=
  dist0 ← unify_dist spaces;
  _ ← (if bool_decide (1 < length spaces)%nat then
         let axes_sets := map (fun space => list_to_set (Space_axes space)) spaces in
         if bool_decide (set_intersection axes_sets ≠ ∅)
         then Raise (ValueError "Overlapping spaces specified.")
         else Ok tt
       else Ok tt);
  let full_spaces := constant_spaces dist0 in
  for_each place_space spaces full_spaces.

Record Domain : Type := {
  Domain_dist : Distributor;
  Domain_spaces : list Space
}.

Global Instance Domain_eq_dec : EqDecision Domain.
Proof. solve_decision. Defined.

(** [Domain._preprocess_args]: the first argument is replaced by its
    expansion. *)
Definition Domain_preprocess_args (spaces : list Space) : result (list Space) :=
  expand_spaces spaces.

(** [Domain.__init__], run on the preprocessed argument. *)
Definition Domain_init (spaces : list Space) : result Domain :=
  s0 ← getitem spaces 0;
  Ok {| Domain_dist := Space_dist s0; Domain_spaces := spaces |}.

(** An instance of [Domain]: the object together with its identity. *)
Record DomainObj : Type := {
  obj_id : nat;
  obj : Domain
}.

(** Modelled from the spec: the instance cache kept by the [CachedClass]
    metaclass of [tools.cache], keyed by the preprocessed constructor
    argument; an entry records the instance created for that key. *)
Definition instance_cache : Type := list (list Space * DomainObj).

Fixpoint cache_lookup (key : list Space) (cache : instance_cache) : option DomainObj :=
  match cache with
  | [] => None
  | (k, o) :: rest => if bool_decide (k = key) then Some o else cache_lookup key rest
  end.

(** Modelled from the spec: calling the class [Domain(spaces)].  The
    argument is preprocessed, the cache is searched for the resulting key,
    and only on a miss a new instance is made and recorded. *)
Definition Domain_call (cache : instance_cache) (spaces : list Space)
  : result (DomainObj * instance_cache) :=
  key ← Domain_preprocess_args spaces;
  match cache_lookup key cache with
  | Some o => Ok (o, cache)
  | None =>
      d ← Domain_init key;
      let o := {| obj_id := length cache; obj := d |} in
      Ok (o, (key, o) :: cache)
  end.

(** A basis object, of which only the [space] attribute is used here. *)
Record Basis : Type := { space : Space }.

(** [Domain.from_dist] *)
Definition Domain_from_dist (cache : instance_cache) (dist0 : Distributor)
  : result (DomainObj * instance_cache) :=
  Domain_call cache (constant_spaces dist0).

(** [Domain.from_bases] *)
Definition Domain_from_bases (cache : instance_cache) (bases : list Basis)
  : result (DomainObj * instance_cache) :=
  Domain_call cache (map space bases).

(** [Space.domain] *)
Definition Space_domain (cache : instance_cache) (self : Space)
  : result (DomainObj * instance_cache) :=
  Domain_call cache [self].

(** [Domain.dealias] *)
Definition Domain_dealias (self : Domain) : list Q :=
  map Space_dealias (Domain_spaces self).

(** [Domain.constant] *)
Definition Domain_constant (self : Domain) : list bool :=
  map Space_constant (Domain_spaces self).

(** [np.zeros(n, dtype=int)] *)
Definition np_zeros (n : nat) : list Z := replicate n 0.

(** [Domain.group_shape] *)
Definition Domain_group_shape (self : Domain) : result (list Z) :=
  let shape0 := np_zeros (dim (Domain_dist self)) in
  for_each (fun shape1 '(axis0, space0) =>
              first ← getitem (Space_axes space0) 0;
              let subaxis := axis0 - first in
              entry ← getitem (Space_group_shape space0) subaxis;
              setitem shape1 axis0 entry)
           (enumerate (Domain_spaces self)) shape0.

(** [Domain.global_coeff_shape] *)
Definition Domain_global_coeff_shape (self : Domain) : result (list Z) :=
  let shape0 := np_zeros (dim (Domain_dist self)) in
  for_each (fun shape1 '(axis0, space0) =>
              first ← getitem (Space_axes space0) 0;
              let subaxis := axis0 - first in
              entry ← getitem (Space_shape space0) subaxis;
              setitem shape1 axis0 entry)
           (enumerate (Domain_spaces self)) shape0.

(** [Domain._global_grid_shape], on remedied scales. *)
Definition Domain__global_grid_shape (self : Domain) (scales : list number)
  : result (list Z) :=
  let shape0 := np_zeros (dim (Domain_dist self)) in
  for_each (fun shape1 '(axis0, space0) =>
              first ← getitem (Space_axes space0) 0;
              let subaxis := axis0 - first in
              scale ← getitem scales axis0;
              gshape ← Space_grid_shape space0 (ScalesScalar scale);
              entry ← getitem gshape subaxis;
              setitem shape1 axis0 entry)
           (enumerate (Domain_spaces self)) shape0.

(** [Domain.global_grid_shape] *)
Definition Domain_global_grid_shape (self : Domain) (scales : scales_arg)
  : result (list Z) :=
  scales' ← remedy_scales (Domain_dist self) scales;
  Domain__global_grid_shape self scales'.


(** ** Auxiliary notions used in the statements *)

(** Calling one of the three interval classes: [cls(...)], where the two
    weight exponents are only passed to [FiniteInterval]. *)
Definition Interval_new (cls : interval_class) (a b : Q) (name0 : string)
    (size0 : Z) (bounds0 : Q * Q) (dist0 : Distributor) (axis0 : Z) (dealias0 : Q)
  : result Space :=
  match cls with
  | Periodic => PeriodicInterval_init name0 size0 bounds0 dist0 axis0 dealias0
  | Parity => ParityInterval_init name0 size0 bounds0 dist0 axis0 dealias0
  | Finite => FiniteInterval_init a b name0 size0 bounds0 dist0 axis0 dealias0
  end.

(** Rounding as the specification words it, [round(x)]: the nearest
    integer, a tie going to the even neighbour as Python's built-in does.
    This is not taken from the code, which never calls [round]. *)
Definition spec_round (x : Q) : Z :=
  let f := Qfloor x in
  match Qcompare (x - inject_Z f) (1 # 2) with
  | Lt => f
  | Gt => f + 1
  | Eq => if Z.even f then f else f + 1
  end.

(** The affine image of one native coordinate, as [to_problem] computes it. *)
Definition problem_image (cov : AffineCOV.t) (x : Q) : Q :=
  (AffineCOV.problem_left cov
   + (x - AffineCOV.native_left cov) / AffineCOV.native_length cov
     * AffineCOV.problem_length cov)%Q.

(** The entry a space supplies for the global axis [axis0] out of its
    per-axis tuple [attr]: the one at the offset of [axis0] from the first
    axis the space occupies. *)
Definition sub_entry (attr : Space -> list Z) (axis0 : Z) (space0 : Space)
  : result Z :=
  first ← getitem (Space_axes space0) 0;
  getitem (attr space0) (axis0 - first).

(** The exception raised by [Space.check_shape]. *)
Definition shape_error : exn :=
  ValueError "Space shape must be multiple of group shape.".

(** The axis sets of two different entries of a list are disjoint. *)
Definition pairwise_disjoint_axes (spaces : list Space) : Prop :=
  forall i j si sj a,
    spaces !! i = Some si -> spaces !! j = Some sj ->
    a ∈ Space_axes si -> a ∈ Space_axes sj -> i = j.

(** No axis is claimed by every space of a list of two or more spaces. *)
Definition no_common_axis (spaces : list Space) : Prop :=
  (1 < length spaces)%nat ->
  forall a, ~ (forall s, s ∈ spaces -> a ∈ Space_axes s).

(** Every axis of every space is an axis index of the distributor. *)
Definition axes_in_range (dist0 : Distributor) (spaces : list Space) : Prop :=
  forall s a, s ∈ spaces -> a ∈ Space_axes s -> 0 <= a < Z.of_nat (dim dist0).


(** ** Named bases and quadrature weights of [FiniteInterval] *)

Section Bases.

(** The type of basis objects, and [basis.Jacobi(space, da=.., db=..)] of
    the basis module, which may itself fail. *)
Variable B : Type.
Variable basis_Jacobi : Space -> Z -> Z -> result B.

(** [jacobi.build_weights] of the quadrature collaborator. *)
Variable build_weights : Z -> Q -> Q -> list Q.

(** [FiniteInterval.weights] *)
Definition FiniteInterval_weights (self : Interval) (a b : Q) (scales : scales_arg)
  : result (list Q) :=
  gshape ← Interval_grid_shape self scales;
  N ← getitem gshape 0;
  Ok (build_weights N a b).

(** [FiniteInterval.Jacobi] *)
Definition FiniteInterval_Jacobi (self : Interval) (a b : Q) (da db : Z)
  : result B :=
  basis_Jacobi (FiniteInterval self a b) da db.

(** [FiniteInterval.grid_basis] *)
Definition FiniteInterval_grid_basis (self : Interval) (a b : Q) : result B :=
  FiniteInterval_Jacobi self a b 0 0.

(** [FiniteInterval.Legendre] *)
Definition FiniteInterval_Legendre (self : Interval) (a b : Q) : result B :=
  if negb (Qeq_bool a 0) || negb (Qeq_bool b 0)
  then Raise (ValueError "Must use a0 = b0 = 0 for Legendre polynomials.")
  else FiniteInterval_Jacobi self a b 0 0.

(** [FiniteInterval.Ultraspherical] *)
Definition FiniteInterval_Ultraspherical (self : Interval) (a b : Q) (d : Z)
  : result B :=
  if negb (Qeq_bool a (- (1 # 2))) || negb (Qeq_bool b (- (1 # 2)))
  then Raise (ValueError "Must use a0 = b0 = -1/2 for Ultraspherical polynomials.")
  else FiniteInterval_Jacobi self a b d d.

(** [FiniteInterval.ChebyshevT] *)
Definition FiniteInterval_ChebyshevT (self : Interval) (a b : Q) : result B :=
  FiniteInterval_Ultraspherical self a b 0.

(** [FiniteInterval.ChebyshevU] *)
Definition FiniteInterval_ChebyshevU (self : Interval) (a b : Q) : result B :=
  FiniteInterval_Ultraspherical self a b 1.

(** [FiniteInterval.ChebyshevV] *)
Definition FiniteInterval_ChebyshevV (self : Interval) (a b : Q) : result B :=
  FiniteInterval_Ultraspherical self a b 2.

(** [FiniteInterval.ChebyshevW] *)
Definition FiniteInterval_ChebyshevW (self : Interval) (a b : Q) : result B :=
  FiniteInterval_Ultraspherical self a b 3.

End Bases.

(** ** Further notions used in the statements *)

(** A space object as one of the four constructors returns it, for the
    distributor [d]. *)
Inductive constructed (d : Distributor) : Space -> Prop :=
| constructed_Constant (axis0 : Z) : constructed d (Constant_init d axis0)
| constructed_Interval (cls : interval_class) (a b : Q) (name0 : string)
    (size0 : Z) (bounds0 : Q * Q) (axis0 : Z) (dealias0 : Q) (sp : Space) :
    Interval_new cls a b name0 size0 bounds0 d axis0 dealias0 = Ok sp ->
    constructed d sp.

(** The entry of [global_grid_shape] that a constructed space on its own
    axis supplies for the scale [s]. *)
Definition scaled_size (s : number) (sp : Space) : result Z :=
  match sp with
  | Constant _ _ => Ok 1
  | PeriodicInterval b _ | ParityInterval b _ | FiniteInterval b _ _ =>
      int_of_product s (size b)
  end.

(** The coefficient size of a constructed space. *)
Definition coeff_size (sp : Space) : Z :=
  match sp with
  | Constant _ _ => 1
  | PeriodicInterval b _ | ParityInterval b _ | FiniteInterval b _ _ => size b
  end.


(** * Properties *)

(** ** Python helpers *)

Lemma div_nonzero (x y : Q) : ~ (y == 0)%Q -> div x y = Ok (x / y)%Q.
Proof.
  intros Hy. unfold div. destruct (Qeq_bool y 0) eqn:E; [|reflexivity].
  apply Qeq_bool_iff in E. contradiction.
Qed.

Lemma div_zero (x y : Q) : (y == 0)%Q -> div x y = Raise ZeroDivisionError.
Proof.
  intros Hy. unfold div. apply Qeq_bool_iff in Hy. now rewrite Hy.
Qed.

Lemma div_cases (x y : Q) :
  ((y == 0)%Q /\ div x y = Raise ZeroDivisionError) \/
  (~ (y == 0)%Q /\ div x y = Ok (x / y)%Q).
Proof.
  destruct (Qeq_dec y 0) as [E|E].
  - left. split; [exact E | now apply div_zero].
  - right. split; [exact E | now apply div_nonzero].
Qed.


Lemma Qeq_bool_true (x y : Q) : (x == y)%Q -> Qeq_bool x y = true.
Proof. apply Qeq_bool_iff. Qed.

Lemma length_zero_iff (l r : Q) : (r - l == 0)%Q <-> (l == r)%Q.
Proof.
  split; intros H.
  - rewrite <- (Qplus_0_l l), <- H. ring.
  - rewrite H. ring.
Qed.

(** ** AffineCOV *)

(** Construction succeeds on non-degenerate bounds and stores what
    [__init__] computes. *)
Lemma AffineCOV_init_ok (nl nr pl pr : Q) :
  ~ (nl == nr)%Q -> ~ (pl == pr)%Q ->
  AffineCOV.init (nl, nr) (pl, pr) =
  Ok (AffineCOV.Build (nl, nr) (pl, pr) nl nr (nr - nl) pl pr (pr - pl)
        ((nr - nl) / (pr - pl)) ((pl + pr) / 2) ((nl + nr) / 2)
        ((pr - pl) / (nr - nl)))%Q.
Proof.
  intros Hn Hp. unfold AffineCOV.init.
  rewrite !div_nonzero by (now rewrite length_zero_iff). reflexivity.
Qed.

(** Whatever [init] returns has non-zero lengths and the given endpoints. *)
Lemma AffineCOV_init_inv (nb pb : Q * Q) (cov : AffineCOV.t) :
  AffineCOV.init nb pb = Ok cov ->
  ~ (AffineCOV.native_length cov == 0)%Q /\
  ~ (AffineCOV.problem_length cov == 0)%Q /\
  AffineCOV.native_left cov = nb.1 /\ AffineCOV.native_right cov = nb.2 /\
  AffineCOV.problem_left cov = pb.1 /\ AffineCOV.problem_right cov = pb.2 /\
  AffineCOV.native_length cov = (nb.2 - nb.1)%Q /\
  AffineCOV.problem_length cov = (pb.2 - pb.1)%Q /\
  AffineCOV.native_center cov = ((nb.1 + nb.2) / 2)%Q /\
  AffineCOV.problem_center cov = ((pb.1 + pb.2) / 2)%Q.
Proof.
  destruct nb as [nl nr], pb as [pl pr]. unfold AffineCOV.init.
  destruct (div_cases (nr - nl) (pr - pl)) as [[Hp ->]|[Hp ->]]; [discriminate|].
  destruct (div_cases (pr - pl) (nr - nl)) as [[Hn ->]|[Hn ->]]; [discriminate|].
  cbn. intros [= <-]. cbn. repeat split; assumption.
Qed.


Lemma np_div_nonzero (x y : Q) : ~ (y == 0)%Q -> np_div x y = Fin (x / y)%Q.
Proof.
  intros Hy. unfold np_div. destruct (Qeq_bool y 0) eqn:E; [|reflexivity].
  apply Qeq_bool_iff in E. contradiction.
Qed.

(** On bounds that are not degenerate the two constructors agree: the
    quotients numpy computes are the finite ones Python computes. *)
Lemma AffineCOV_init_numpy_agrees (nb pb : Q * Q) (cov : AffineCOV.t) :
  AffineCOV.init nb pb = Ok cov ->
  AffineCOV.init_numpy nb pb
  = AffineCOV.Build_numpy
      (AffineCOV.native_bounds cov) (AffineCOV.problem_bounds cov)
      (AffineCOV.native_left cov) (AffineCOV.native_right cov)
      (AffineCOV.native_length cov)
      (AffineCOV.problem_left cov) (AffineCOV.problem_right cov)
      (AffineCOV.problem_length cov)
      (Fin (AffineCOV.jacobian cov))
      (AffineCOV.problem_center cov) (AffineCOV.native_center cov)
      (Fin (AffineCOV.stretch cov)).
Proof.
  destruct nb as [nl nr], pb as [pl pr]. unfold AffineCOV.init, AffineCOV.init_numpy.
  destruct (div_cases (nr - nl) (pr - pl)) as [[Hp ->]|[Hp ->]]; [discriminate|].
  destruct (div_cases (pr - pl) (nr - nl)) as [[Hn ->]|[Hn ->]]; [discriminate|].
  cbn. intros [= <-]. cbn. now rewrite !np_div_nonzero.
Qed.




(** C6.  For non-degenerate native and problem bounds the map is built, the
    two numeric maps are inverse to each other (up to numeric equality of
    rationals), and the tokens ['left'], ['right'], ['center'] return the
    endpoints and the centre of the target interval. *)
Theorem AffineCOV_roundtrip (nb pb : Q * Q) :
  ~ (nb.1 == nb.2)%Q -> ~ (pb.1 == pb.2)%Q ->
  exists cov, AffineCOV.init nb pb = Ok cov /\
    (forall x, exists y z,
        AffineCOV.problem_coord cov (CNum x) = Ok (VNum y) /\
        AffineCOV.native_coord cov (CNum y) = Ok (VNum z) /\ (z == x)%Q) /\
    (forall x, exists y z,
        AffineCOV.native_coord cov (CNum x) = Ok (VNum y) /\
        AffineCOV.problem_coord cov (CNum y) = Ok (VNum z) /\ (z == x)%Q) /\
    AffineCOV.problem_coord cov (CStr "left") = Ok (VNum pb.1) /\
    AffineCOV.problem_coord cov (CStr "right") = Ok (VNum pb.2) /\
    AffineCOV.problem_coord cov (CStr "center") = Ok (VNum ((pb.1 + pb.2) / 2)%Q) /\
    AffineCOV.native_coord cov (CStr "left") = Ok (VNum nb.1) /\
    AffineCOV.native_coord cov (CStr "right") = Ok (VNum nb.2) /\
    AffineCOV.native_coord cov (CStr "center") = Ok (VNum ((nb.1 + nb.2) / 2)%Q).
Proof.
  destruct nb as [nl nr], pb as [pl pr]. cbn [fst snd]. intros Hn Hp.
  eexists. split; [apply AffineCOV_init_ok; assumption|].
  assert (Hn' : ~ (nr - nl == 0)%Q) by (now rewrite length_zero_iff).
  assert (Hp' : ~ (pr - pl == 0)%Q) by (now rewrite length_zero_iff).
  repeat split; try reflexivity.
  - intros x. do 2 eexists.
    unfold AffineCOV.problem_coord, AffineCOV.native_coord,
      AffineCOV.to_problem, AffineCOV.to_native. cbn.
    rewrite !div_nonzero by assumption. cbn.
    split; [reflexivity|]. split; [reflexivity|]. field. split; assumption.
  - intros x. do 2 eexists.
    unfold AffineCOV.problem_coord, AffineCOV.native_coord,
      AffineCOV.to_problem, AffineCOV.to_native. cbn.
    rewrite !div_nonzero by assumption. cbn.
    split; [reflexivity|]. split; [reflexivity|]. field. split; assumption.
Qed.

Lemma AffineCOV_roundtrip_witness :
  exists cov, AffineCOV.init (-1, 1)%Q (0, 4)%Q = Ok cov /\
    AffineCOV.problem_coord cov (CStr "center") = Ok (VNum ((0 + 4) / 2)%Q).
Proof.
  destruct (AffineCOV_roundtrip (-1, 1)%Q (0, 4)%Q) as (cov & Hc & _ & _ & _ & _ & Hm & _).
  - cbn. intros H. discriminate H.
  - cbn. intros H. discriminate H.
  - exists cov. split; [exact Hc | exact Hm].
Defined.

(** C10.  A string other than ['left'], ['right'] and ['center'] falls
    through the conditional chain of both coordinate maps, which then return
    [None]: no exception is raised and no coordinate is returned. *)
Theorem AffineCOV_unknown_token (cov : AffineCOV.t) (s : string) :
  s ≠ "left" -> s ≠ "right" -> s ≠ "center" ->
  AffineCOV.problem_coord cov (CStr s) = Ok VNone /\
  AffineCOV.native_coord cov (CStr s) = Ok VNone.
Proof.
  intros Hl Hr Hc. unfold AffineCOV.problem_coord, AffineCOV.native_coord.
  apply String.eqb_neq in Hl, Hr, Hc. rewrite Hl, Hr, Hc. split; reflexivity.
Qed.

Lemma AffineCOV_unknown_token_witness :
  AffineCOV.problem_coord
    (AffineCOV.Build (-1, 1) (0, 4) (-1) 1 2 0 4 4 (1 # 2) 2 0 2)%Q
    (CStr "middle") = Ok VNone /\
  AffineCOV.native_coord
    (AffineCOV.Build (-1, 1) (0, 4) (-1) 1 2 0 4 4 (1 # 2) 2 0 2)%Q
    (CStr "middle") = Ok VNone.
Proof.
  apply (AffineCOV_unknown_token
           (AffineCOV.Build (-1, 1) (0, 4) (-1) 1 2 0 4 4 (1 # 2) 2 0 2)%Q
           "middle"); discriminate.
Defined.

(** ** Spaces: construction *)

Lemma class_group_shape_entry (cls : interval_class) :
  exists g, class_group_shape cls = [g] /\ (g = 1 \/ g = 2).
Proof. destruct cls; eexists; split; try reflexivity; lia. Qed.

Lemma check_shape_single (g size : Z) :
  g <> 0 ->
  check_shape [g] [size] =
  if size mod g =? 0 then Ok tt else Raise shape_error.
Proof.
  intros Hg. unfold check_shape. cbn.
  apply Z.eqb_neq in Hg. rewrite Hg.
  destruct (size mod g =? 0); reflexivity.
Qed.

(** [Interval.__init__] checks the shape before anything else. *)
Lemma Interval_init_unfold (cls : interval_class) (g : Z) name0 size0 bounds0
    dist0 axis0 dealias0 :
  class_group_shape cls = [g] ->
  Interval_init cls name0 size0 bounds0 dist0 axis0 dealias0 =
  if size0 mod g =? 0 then
    cov ← AffineCOV.init (native_bounds cls) bounds0;
    Ok {| name := name0; size := size0; shape := [size0]; bounds := bounds0;
          dist := dist0; axis := axis0; axes := [axis0]; dealias := dealias0;
          COV := cov |}
  else Raise shape_error.
Proof.
  intros Hg. unfold Interval_init. rewrite Hg.
  rewrite check_shape_single by (destruct cls; inversion Hg; lia).
  destruct (size0 mod g =? 0); reflexivity.
Qed.

(** What a successful [Interval.__init__] has stored. *)
Lemma Interval_init_inv (cls : interval_class) name0 size0 bounds0 dist0 axis0
    dealias0 (base : Interval) :
  Interval_init cls name0 size0 bounds0 dist0 axis0 dealias0 = Ok base ->
  size base = size0 /\ shape base = [size0] /\ dist base = dist0 /\
  axis base = axis0 /\ axes base = [axis0] /\ dealias base = dealias0 /\
  AffineCOV.init (native_bounds cls) bounds0 = Ok (COV base) /\
  (forall g, class_group_shape cls = [g] -> size0 mod g = 0).
Proof.
  destruct (class_group_shape_entry cls) as (g & Hg & _).
  rewrite (Interval_init_unfold cls g) by exact Hg.
  destruct (size0 mod g =? 0) eqn:E; [|discriminate].
  destruct (AffineCOV.init (native_bounds cls) bounds0) as [cov|e]; [|discriminate].
  cbn. intros [= <-]. cbn. repeat split.
  intros g' Hg'. rewrite Hg in Hg'. inversion Hg'; subst. now apply Z.eqb_eq.
Qed.

(** A successful call of an interval class returns an instance of that
    class around the attributes stored by [Interval.__init__]. *)
Lemma Interval_new_inv (cls : interval_class) a b name0 size0 bounds0 dist0
    axis0 dealias0 (sp : Space) :
  Interval_new cls a b name0 size0 bounds0 dist0 axis0 dealias0 = Ok sp ->
  exists base,
    Interval_init cls name0 size0 bounds0 dist0 axis0 dealias0 = Ok base /\
    sp = match cls with
         | Periodic => PeriodicInterval base ((size0 - 1) / 2)
         | Parity => ParityInterval base (size0 - 1)
         | Finite => FiniteInterval base a b
         end.
Proof.
  unfold Interval_new, PeriodicInterval_init, ParityInterval_init,
    FiniteInterval_init.
  destruct cls;
    (destruct (Interval_init _ name0 size0 bounds0 dist0 axis0 dealias0)
       as [base|e] eqn:E; cbn; [|discriminate]);
    intros [= <-]; exists base; (split; [reflexivity|]);
    apply Interval_init_inv in E as (Hs & _); try rewrite Hs; reflexivity.
Qed.

(** C8.  Calling a space class with a coefficient size that is not a
    multiple of the class's group shape raises the shape error before
    anything else is done, and every space object that construction does
    return (a constant space included) has a shape that is a multiple of
    its group shape. *)
Theorem shape_group_mismatch (cls : interval_class) (g : Z) (a b : Q)
    (name0 : string) (size0 : Z) (bounds0 : Q * Q) (dist0 : Distributor)
    (axis0 : Z) (dealias0 : Q) :
  class_group_shape cls = [g] ->
  (size0 mod g <> 0 ->
   Interval_new cls a b name0 size0 bounds0 dist0 axis0 dealias0 =
   Raise (ValueError "Space shape must be multiple of group shape.")) /\
  (forall sp,
      Interval_new cls a b name0 size0 bounds0 dist0 axis0 dealias0 = Ok sp ->
      Space_shape sp = [size0] /\ Space_group_shape sp = [g] /\ size0 mod g = 0) /\
  (Space_shape (Constant_init dist0 axis0) = [1] /\
   Space_group_shape (Constant_init dist0 axis0) = [1] /\ 1 mod 1 = 0).
Proof.
  intros Hg. split; [|split].
  - intros Hm. apply Z.eqb_neq in Hm.
    unfold Interval_new, PeriodicInterval_init, ParityInterval_init,
      FiniteInterval_init.
    destruct cls; rewrite (Interval_init_unfold _ g) by exact Hg;
      rewrite Hm; reflexivity.
  - intros sp Hsp. apply Interval_new_inv in Hsp as (base & Hb & ->).
    apply Interval_init_inv in Hb as (_ & Hshape & _ & _ & _ & _ & _ & Hmod).
    destruct cls; cbn [Space_shape Space_group_shape]; rewrite Hshape;
      (split; [reflexivity|]); (split; [exact Hg | now apply Hmod]).
  - repeat split.
Qed.

Lemma shape_group_mismatch_witness :
  Interval_new Periodic 0 0 "x" 7 (0, 1)%Q {| dist_ident := 0; dim := 1 |} 0 1 =
  Raise (ValueError "Space shape must be multiple of group shape.").
Proof.
  apply (shape_group_mismatch Periodic 2 0 0 "x" 7 (0, 1)%Q
           {| dist_ident := 0; dim := 1 |} 0 1).
  - reflexivity.
  - discriminate.
Defined.

(** ** Spaces: grid shapes *)

Lemma int_of_integer (q : Q) (k : Z) : (q == inject_Z k)%Q -> int q = k.
Proof.
  destruct q as [n d]. unfold Qeq, int. cbn. intros H.
  rewrite Z.mul_1_r in H. subst n. apply Z.quot_mul. lia.
Qed.

Lemma int_nonneg_floor (q : Q) : (0 <= q)%Q -> int q = Qfloor q.
Proof.
  destruct q as [n d]. unfold Qle, int. cbn. intros H.
  apply Z.quot_div_nonneg; lia.
Qed.

Lemma spec_round_of_integer (q : Q) (k : Z) :
  (q == inject_Z k)%Q -> spec_round q = k.
Proof.
  intros H. unfold spec_round.
  assert (Hf : Qfloor q = k) by (rewrite H; apply Qfloor_Z).
  rewrite Hf.
  assert (Hlt : (q - inject_Z k < 1 # 2)%Q).
  { assert (Hz : (q - inject_Z k == 0)%Q) by (rewrite H; ring).
    rewrite Hz. reflexivity. }
  assert (Hc : Qcompare (q - inject_Z k) (1 # 2) = Lt) by (now apply Qlt_alt).
  now rewrite Hc.
Qed.

Lemma remedy_scales_inv (dist0 : Distributor) (scales : scales_arg)
    (ss : list number) :
  remedy_scales dist0 scales = Ok ss ->
  length ss = dim dist0 /\ (forall s, s ∈ ss -> (0 < number_val s)%Q).
Proof.
  unfold remedy_scales.
  set (l := match scales with ScalesScalar s => _ | ScalesSeq ss0 => ss0 end).
  destruct (bool_decide (length l = dim dist0)) eqn:El; [|discriminate].
  destruct (forallb _ l) eqn:Ef; [|discriminate].
  cbn. intros [= <-]. split; [now apply bool_decide_eq_true in El|].
  intros s Hs. rewrite forallb_forall in Ef.
  apply list_elem_of_In, Ef, negb_true_iff in Hs.
  apply Qnot_le_lt. intros Hle. apply Qle_bool_iff in Hle. congruence.
Qed.

Lemma remedy_scales_scalar (dist0 : Distributor) (s : number) :
  (0 < number_val s)%Q ->
  remedy_scales dist0 (ScalesScalar s) = Ok (replicate (dim dist0) s).
Proof.
  intros Hs. unfold remedy_scales.
  rewrite length_replicate, bool_decide_eq_true_2 by reflexivity.
  assert (Hf : forallb (fun s0 : number => negb (Qle_bool (number_val s0) 0))
                 (replicate (dim dist0) s) = true).
  { apply forallb_forall. intros x Hx.
    apply list_elem_of_In, elem_of_replicate in Hx as [-> _].
    apply negb_true_iff. destruct (Qle_bool (number_val s) 0) eqn:E; [|reflexivity].
    apply Qle_bool_iff in E. exfalso. now apply (Qlt_not_le 0 (number_val s)). }
  rewrite Hf. reflexivity.
Qed.

Lemma getitem_head {A : Type} (x : A) (xs : list A) : getitem (x :: xs) 0 = Ok x.
Proof. reflexivity. Qed.

(** A one-element slice starting at a valid non-negative index. *)
Lemma slice_one {A : Type} (xs : list A) (i : Z) (x : A) :
  0 <= i -> xs !! Z.to_nat i = Some x -> slice xs i (i + 1) = [x].
Proof.
  intros Hi Hx. pose proof (lookup_lt_Some _ _ _ Hx) as Hlt.
  unfold slice, slice_bound.
  destruct (i <? 0) eqn:E1; [lia|].
  destruct (i + 1 <? 0) eqn:E2; [lia|].
  replace (Z.to_nat (Z.min i (Z.of_nat (length xs)))) with (Z.to_nat i) by lia.
  replace (Z.to_nat (Z.min (i + 1) (Z.of_nat (length xs))) - Z.to_nat i)%nat
    with 1%nat by lia.
  rewrite (drop_S _ _ _ Hx). reflexivity.
Qed.

(** [Space.grid_shape] on an interval whose axis is an axis of the
    distributor: the scale of that axis times the size, truncated. *)
Lemma Interval_grid_shape_at (self : Interval) (N : Z) (scales : scales_arg)
    (ss : list number) (s : number) :
  shape self = [N] ->
  remedy_scales (dist self) scales = Ok ss ->
  0 <= axis self -> ss !! Z.to_nat (axis self) = Some s ->
  Interval_grid_shape self scales = (k ← int_of_product s N; Ok [k]).
Proof.
  intros Hshape Hr Hax Hs. unfold Interval_grid_shape. rewrite Hr.
  cbn [mbind result_bind].
  unfold Interval_dim. rewrite (slice_one _ _ _ Hax Hs), Hshape.
  cbn [zip zip_with mapM]. destruct (int_of_product s N); reflexivity.
Qed.

Lemma round_half_even_nonneg (num den : Z) :
  0 <= num -> 0 < den -> 0 <= round_half_even num den.
Proof.
  intros Hn Hd. unfold round_half_even.
  assert (Hm : 0 <= num / den) by (apply Z.div_pos; lia).
  destruct (2 * (num mod den) ?= den); [destruct (Z.even (num / den))| |]; lia.
Qed.

(** The rounding on numbers whose binary64 neighbours are known: 1/10 and
    7/10 go to the floats written 0.1 and 0.7; an integer just above 2^53
    goes to its even neighbour; the least int that no float holds
    overflows, the one below it does not; halfway between two subnormal
    numbers the even one is taken. *)
Lemma round_binary64_examples :
  (exists v, round_binary64 (1 # 10) = Some v /\
             (v == 3602879701896397 # 36028797018963968)%Q) /\
  (exists v, round_binary64 (7 # 10) = Some v /\
             (v == 3152519739159347 # 4503599627370496)%Q) /\
  (exists v, round_binary64 (inject_Z (2 ^ 53 + 1)) = Some v /\
             (v == inject_Z (2 ^ 53))%Q) /\
  (exists v, round_binary64 (inject_Z (2 ^ 53 + 3)) = Some v /\
             (v == inject_Z (2 ^ 53 + 4))%Q) /\
  (exists v, round_binary64 (inject_Z (- (2 ^ 53 + 3))) = Some v /\
             (v == inject_Z (- (2 ^ 53 + 4)))%Q) /\
  round_binary64 (inject_Z (2 ^ 1024 - 2 ^ 970)) = None /\
  (exists v, round_binary64 (inject_Z (2 ^ 1024 - 2 ^ 970 - 1)) = Some v /\
             (v == inject_Z (2 ^ 1024 - 2 ^ 971))%Q) /\
  (exists v, round_binary64 (1 # 2 ^ 1075) = Some v /\ (v == 0)%Q) /\
  (exists v, round_binary64 (3 # 2 ^ 1075) = Some v /\ (v == 1 # 2 ^ 1073)%Q).
Proof.
  repeat split; try (eexists; split; [vm_compute; reflexivity|]);
    vm_compute; reflexivity.
Qed.

(** Rounding to binary64 keeps a number that is not negative so. *)
Lemma round_binary64_nonneg (q p : Q) :
  (0 <= q)%Q -> round_binary64 q = Some p -> (0 <= p)%Q.
Proof.
  destruct q as [n d]. unfold Qle. cbn [Qnum Qden]. rewrite Z.mul_1_r.
  change (0 * Z.pos d) with 0. intros Hn.
  unfold round_binary64. cbn [Qnum Qden].
  destruct (Z.abs n =? 0); [intros [= <-]; discriminate|].
  set (e := Z.max (floor_log2 (Z.abs n) (Z.pos d) - 52) (-1074)).
  set (m := if 0 <=? e then round_half_even (Z.abs n) (Z.pos d * 2 ^ e)
            else round_half_even (Z.abs n * 2 ^ (- e)) (Z.pos d)).
  destruct ((0 <=? e) && (2 ^ 1024 <=? m * 2 ^ e)); [discriminate|].
  intros [= <-].
  assert (Hm : 0 <= m).
  { unfold m. destruct (0 <=? e) eqn:Ee.
    - apply Z.leb_le in Ee. apply round_half_even_nonneg; [lia|].
      apply Z.mul_pos_pos; [lia|]. now apply Z.pow_pos_nonneg.
    - apply round_half_even_nonneg; [|lia].
      apply Z.mul_nonneg_nonneg; [lia|]. apply Z.pow_nonneg. lia. }
  apply Qmult_le_0_compat.
  - change 0%Q with (inject_Z 0). rewrite <- Zle_Qle.
    apply Z.mul_nonneg_nonneg; [|exact Hm].
    destruct n; cbn; lia.
  - apply Qpower_0_le. discriminate.
Qed.

(** C2, as stated, fails: [grid_shape] converts with [int], which
    truncates.  A [FiniteInterval] of size 5 asked for the float scale 3/4
    answers [(3,)], while 3.75 rounds to 4. *)
Lemma grid_shape_not_round :
  exists sp,
    Interval_new Finite 0 0 "x" 5 (-1, 1)%Q {| dist_ident := 0; dim := 1 |} 0 1
    = Ok sp /\
    Space_grid_shape sp (ScalesScalar (PyFloat (3 # 4))) = Ok [3] /\
    spec_round ((3 # 4) * inject_Z 5) = 4 /\
    Space_grid_shape sp (ScalesScalar (PyFloat (3 # 4)))
    <> Ok [spec_round ((3 # 4) * inject_Z 5)].
Proof.
  eexists. split; [vm_compute; reflexivity|].
  split; [vm_compute; reflexivity|].
  split; [vm_compute; reflexivity|].
  vm_compute. discriminate.
Qed.

(** The product is the machine's: the float 0.7 is
    3152519739159347 / 2^52, slightly below 7/10, and its exact product
    with 10 lies below 7; rounded to binary64 the product is 7.0, so a
    space of size 10 asked for that scale answers [(7,)], not [(6,)].
    A size of 2^53 + 1 is kept by the [int] scale 1 and loses its last
    unit under the float scale 1.0. *)
Lemma grid_shape_binary64_product :
  (exists sp,
     Interval_new Finite 0 0 "x" 10 (-1, 1)%Q {| dist_ident := 0; dim := 1 |} 0 1
     = Ok sp /\
     Space_grid_shape sp
       (ScalesScalar (PyFloat (3152519739159347 # 4503599627370496))) = Ok [7] /\
     int ((3152519739159347 # 4503599627370496) * inject_Z 10) = 6) /\
  (exists sp,
     Interval_new Finite 0 0 "x" (2 ^ 53 + 1) (-1, 1)%Q
       {| dist_ident := 0; dim := 1 |} 0 1 = Ok sp /\
     Space_grid_shape sp (ScalesScalar 1) = Ok [2 ^ 53 + 1] /\
     Space_grid_shape sp (ScalesScalar (PyFloat 1)) = Ok [2 ^ 53]).
Proof.
  split; eexists; (split; [vm_compute; reflexivity|]);
    split; vm_compute; reflexivity.
Qed.

(** C2, amended.  For a space of an interval class with coefficient size
    [N], placed on an axis of its distributor, and a scale argument that
    the distributor normalizes to [ss], [grid_shape] returns the one-entry
    tuple [int(s * N)], [s] being the scale of that axis, with the product
    as Python computes it.  For an [int] scale the product is exact.  For
    a float scale it is the binary64 product of the scale and [float(N)],
    truncated toward zero: its floor for [N >= 0], and its rounding
    whenever that product is an integer.  The [Constant] class ignores the
    scale and returns [(1,)].  A [PeriodicInterval] of size 8 has
    [global_grid_shape((1.5,)) = (12,)]. *)
Theorem grid_shape_truncates (cls : interval_class) (a b : Q) (name0 : string)
    (N : Z) (bounds0 : Q * Q) (dist0 : Distributor) (axis0 : Z) (dealias0 : Q)
    (sp : Space) (scales : scales_arg) (ss : list number) (s : number) :
  Interval_new cls a b name0 N bounds0 dist0 axis0 dealias0 = Ok sp ->
  remedy_scales dist0 scales = Ok ss ->
  0 <= axis0 -> ss !! Z.to_nat axis0 = Some s ->
  Space_grid_shape sp scales = (k ← int_of_product s N; Ok [k]) /\
  (forall k, s = PyInt k -> Space_grid_shape sp scales = Ok [k * N]) /\
  (forall x y p,
     s = PyFloat x -> float_of_int N = Ok y -> float_mul x y = Some p ->
     Space_grid_shape sp scales = Ok [int p] /\
     (0 <= N -> int p = Qfloor p) /\
     (forall k, (p == inject_Z k)%Q -> int p = k /\ spec_round p = k)) /\
  (forall scales', Space_grid_shape (Constant_init dist0 axis0) scales' = Ok [1]) /\
  (exists x dom cache,
      PeriodicInterval_init "x" 8 (0, 2 * np_pi)%Q {| dist_ident := 0; dim := 1 |} 0 1
      = Ok x /\
      Space_domain [] x = Ok (dom, cache) /\
      Domain_global_grid_shape (obj dom) (ScalesSeq [PyFloat (3 # 2)]) = Ok [12]).
Proof.
  intros Hsp Hr Hax Hs.
  apply Interval_new_inv in Hsp as (base & Hb & ->).
  apply Interval_init_inv in Hb as (_ & Hshape & Hdist & Haxis & _).
  assert (Hg : Interval_grid_shape base scales = (k ← int_of_product s N; Ok [k])).
  { apply (Interval_grid_shape_at base N scales ss s); try assumption;
      rewrite ?Hdist, ?Haxis; assumption. }
  assert (Hsg : Space_grid_shape
                  match cls with
                  | Periodic => PeriodicInterval base ((N - 1) / 2)
                  | Parity => ParityInterval base (N - 1)
                  | Finite => FiniteInterval base a b
                  end scales = (k ← int_of_product s N; Ok [k])).
  { destruct cls; exact Hg. }
  split; [exact Hsg|]. split; [|split; [|split]].
  - intros k ->. rewrite Hsg. reflexivity.
  - intros x y p -> Hy Hp. rewrite Hsg.
    cbn [int_of_product]. rewrite Hy. cbn [mbind result_bind].
    rewrite Hp. cbn [int_of_float mbind result_bind].
    split; [reflexivity|]. split.
    + intros HN. apply int_nonneg_floor.
      apply (round_binary64_nonneg (x * y)); [|exact Hp].
      apply Qmult_le_0_compat.
      * apply remedy_scales_inv in Hr as [_ Hpos].
        apply Qlt_le_weak, (Hpos (PyFloat x)).
        eapply list_elem_of_lookup_2; eassumption.
      * unfold float_of_int in Hy.
        destruct (round_binary64 (inject_Z N)) as [y'|] eqn:Ey; [|discriminate].
        injection Hy as ->. apply (round_binary64_nonneg (inject_Z N)); [|exact Ey].
        change 0%Q with (inject_Z 0). now rewrite <- Zle_Qle.
    + intros k Hk.
      split; [now apply int_of_integer | now apply spec_round_of_integer].
  - reflexivity.
  - do 3 eexists. split; [vm_compute; reflexivity|].
    split; [vm_compute; reflexivity|]. vm_compute. reflexivity.
Qed.

Lemma grid_shape_truncates_witness :
  exists sp,
    Interval_new Finite 0 0 "x" 5 (-1, 1)%Q {| dist_ident := 0; dim := 1 |} 0 1
    = Ok sp /\
    Space_grid_shape sp (ScalesScalar (PyFloat (3 # 4)))
    = (k ← int_of_product (PyFloat (3 # 4)) 5; Ok [k]).
Proof.
  eexists. split; [vm_compute; reflexivity|].
  refine (proj1 (grid_shape_truncates Finite 0 0 "x" 5 (-1, 1)%Q
                   {| dist_ident := 0; dim := 1 |} 0 1 _
                   (ScalesScalar (PyFloat (3 # 4)))
                   [PyFloat (3 # 4)] (PyFloat (3 # 4)) _ _ _ _)).
  - vm_compute; reflexivity.
  - vm_compute; reflexivity.
  - lia.
  - reflexivity.
Defined.

(** ** Spaces: grids *)

Lemma map_is_fmap {A B : Type} (f : A -> B) (l : list A) : map f l = f <$> l.
Proof. induction l as [|x l IH]; [reflexivity|]. cbn. now rewrite IH. Qed.

Lemma to_problem_ok (cov : AffineCOV.t) (x : Q) :
  ~ (AffineCOV.native_length cov == 0)%Q ->
  AffineCOV.to_problem cov x = Ok (problem_image cov x).
Proof.
  intros Hn. unfold AffineCOV.to_problem. now rewrite div_nonzero.
Qed.

Lemma mapM_to_problem (cov : AffineCOV.t) (xs : list Q) :
  ~ (AffineCOV.native_length cov == 0)%Q ->
  mapM (AffineCOV.to_problem cov) xs = Ok (problem_image cov <$> xs).
Proof.
  intros Hn. induction xs as [|x xs IH]; [reflexivity|].
  cbn. rewrite to_problem_ok by exact Hn. cbn. rewrite IH. reflexivity.
Qed.

(** An array of native coordinates is mapped point by point. *)
Lemma problem_coord_array (cov : AffineCOV.t) (xs : list Q) :
  ~ (AffineCOV.native_length cov == 0)%Q ->
  AffineCOV.problem_coord cov (CArr xs) = Ok (VArr (problem_image cov <$> xs)).
Proof.
  intros Hn. unfold AffineCOV.problem_coord. now rewrite mapM_to_problem.
Qed.

Lemma native_of_problem_image (cov : AffineCOV.t) (t : Q) :
  ~ (AffineCOV.native_length cov == 0)%Q ->
  ~ (AffineCOV.problem_length cov == 0)%Q ->
  exists y, AffineCOV.native_coord cov (CNum (problem_image cov t)) = Ok (VNum y) /\
            (y == t)%Q.
Proof.
  intros Hn Hp. eexists. unfold AffineCOV.native_coord, AffineCOV.to_native.
  rewrite div_nonzero by exact Hp. cbn. split; [reflexivity|].
  unfold problem_image. field. split; assumption.
Qed.

Lemma Periodic_native_grid_lookup (N : Z) (i : nat) :
  (i < Z.to_nat N)%nat ->
  Periodic_native_grid N !! i
  = Some (2 * np_pi * inject_Z (Z.of_nat i) / inject_Z N)%Q.
Proof.
  intros Hi. unfold Periodic_native_grid, arange.
  rewrite !map_is_fmap, !list_lookup_fmap, lookup_seq_lt by exact Hi.
  reflexivity.
Qed.

Lemma Periodic_native_grid_length (N : Z) :
  length (Periodic_native_grid N) = Z.to_nat N.
Proof.
  unfold Periodic_native_grid, arange. now rewrite !length_map, length_seq.
Qed.

(** With the scale 1 on every axis the grid has the coefficient size. *)
Lemma Interval_grid_shape_unit (self : Interval) (N : Z) :
  shape self = [N] ->
  0 <= axis self < Z.of_nat (dim (dist self)) ->
  Interval_grid_shape self (ScalesScalar 1) = Ok [N].
Proof.
  intros Hshape Hax.
  rewrite (Interval_grid_shape_at self N (ScalesScalar 1)
             (replicate (dim (dist self)) (PyInt 1)) (PyInt 1)); try assumption.
  - cbn [int_of_product mbind result_bind]. now rewrite Z.mul_1_l.
  - now apply remedy_scales_scalar.
  - lia.
  - apply lookup_replicate_2. lia.
Qed.

(** C7.  A [PeriodicInterval] of size [N >= 1] on an axis of its
    distributor has [kmax = (N - 1) // 2] and group shape [(2,)]; at scale
    1 its grid has [N] points, the native grid being [2*pi*i/N] for
    [i = 0 .. N-1], and the [i]-th point returned by [grids] maps back to
    that native coordinate, the first one to native coordinate 0. *)
Theorem PeriodicInterval_grid (build_grid : Z -> Q -> Q -> list Q)
    (name0 : string) (N : Z) (bounds0 : Q * Q) (dist0 : Distributor)
    (axis0 : Z) (dealias0 : Q) (sp : Space) :
  1 <= N ->
  PeriodicInterval_init name0 N bounds0 dist0 axis0 dealias0 = Ok sp ->
  0 <= axis0 < Z.of_nat (dim dist0) ->
  exists base g,
    sp = PeriodicInterval base ((N - 1) / 2) /\
    Space_group_shape sp = [2] /\
    Space_grid_shape sp (ScalesScalar 1) = Ok [N] /\
    Periodic_native_grid N
    = map (fun i : nat => 2 * np_pi * inject_Z (Z.of_nat i) / inject_Z N)%Q
          (seq 0 (Z.to_nat N)) /\
    Space_grids build_grid sp (ScalesScalar 1) = Ok (GTuple [VArr g]) /\
    length g = Z.to_nat N /\
    (forall i x, g !! i = Some x ->
       exists y, AffineCOV.native_coord (COV base) (CNum x) = Ok (VNum y) /\
                 (y == 2 * np_pi * inject_Z (Z.of_nat i) / inject_Z N)%Q) /\
    (exists x0 y0, g !! 0%nat = Some x0 /\
       AffineCOV.native_coord (COV base) (CNum x0) = Ok (VNum y0) /\
       (y0 == 0)%Q).
Proof.
  intros HN Hsp Hax.
  apply (Interval_new_inv Periodic 0 0) in Hsp as (base & Hb & ->).
  apply Interval_init_inv in Hb as (_ & Hshape & Hdist & Haxis & _ & _ & Hcov & _).
  apply AffineCOV_init_inv in Hcov as (Hn & Hp & _).
  assert (Hgs : Interval_grid_shape base (ScalesScalar 1) = Ok [N]).
  { apply Interval_grid_shape_unit; [exact Hshape|]. now rewrite Hdist, Haxis. }
  assert (Hlook : forall i x,
             (problem_image (COV base) <$> Periodic_native_grid N) !! i = Some x ->
             (i < Z.to_nat N)%nat /\
             x = problem_image (COV base)
                   (2 * np_pi * inject_Z (Z.of_nat i) / inject_Z N)%Q).
  { intros i x Hx. rewrite list_lookup_fmap in Hx.
    destruct (Periodic_native_grid N !! i) as [t|] eqn:Et; [|discriminate].
    pose proof (lookup_lt_Some _ _ _ Et) as Hi.
    rewrite Periodic_native_grid_length in Hi. split; [exact Hi|].
    rewrite Periodic_native_grid_lookup in Et by exact Hi.
    cbn in Hx. congruence. }
  exists base, (problem_image (COV base) <$> Periodic_native_grid N).
  split; [reflexivity|]. split; [reflexivity|]. split; [exact Hgs|].
  split; [unfold Periodic_native_grid, arange; now rewrite map_map|].
  split.
  { cbn [Space_grids]. unfold PeriodicInterval_grids. rewrite Hgs.
    cbn -[AffineCOV.problem_coord Periodic_native_grid].
    rewrite getitem_head. cbn -[AffineCOV.problem_coord Periodic_native_grid].
    rewrite problem_coord_array by exact Hn. reflexivity. }
  split; [now rewrite length_fmap, Periodic_native_grid_length|].
  split.
  - intros i x Hx. apply Hlook in Hx as [_ ->].
    now apply native_of_problem_image.
  - assert (H0 : (0 < Z.to_nat N)%nat) by lia.
    eexists.
    destruct (native_of_problem_image (COV base)
                (2 * np_pi * inject_Z (Z.of_nat 0) / inject_Z N)%Q Hn Hp)
      as (y0 & Hy0 & Heq).
    exists y0. split; [|split; [exact Hy0|]].
    + rewrite list_lookup_fmap, Periodic_native_grid_lookup by exact H0.
      reflexivity.
    + rewrite Heq. cbn [Z.of_nat]. unfold Qdiv. ring.
Qed.

Lemma PeriodicInterval_grid_witness :
  exists sp g,
    PeriodicInterval_init "x" 8 (0, 1)%Q {| dist_ident := 0; dim := 1 |} 0 1 = Ok sp /\
    Space_grids (fun _ _ _ => []) sp (ScalesScalar 1) = Ok (GTuple [VArr g]) /\
    length g = Z.to_nat 8.
Proof.
  destruct (PeriodicInterval_grid (fun _ _ _ => []) "x" 8 (0, 1)%Q
              {| dist_ident := 0; dim := 1 |} 0 1
              (PeriodicInterval
                 {| name := "x"; size := 8; shape := [8]; bounds := (0, 1)%Q;
                    dist := {| dist_ident := 0; dim := 1 |}; axis := 0;
                    axes := [0]; dealias := 1;
                    COV := AffineCOV.Build (0, 2 * np_pi)%Q (0, 1)%Q 0
                             (2 * np_pi) (2 * np_pi - 0) 0 1 (1 - 0)
                             ((2 * np_pi - 0) / (1 - 0)) ((0 + 1) / 2)
                             ((0 + 2 * np_pi) / 2)
                             ((1 - 0) / (2 * np_pi - 0)) |} 3))
    as (base & g & _ & _ & _ & _ & Hg & Hlen & _).
  - lia.
  - reflexivity.
  - cbn. lia.
  - eexists. exists g. split; [reflexivity|]. split; [exact Hg | exact Hlen].
Defined.

(** [FiniteInterval.grids] returns the mapped array itself. *)
Lemma FiniteInterval_grids_bare (build_grid : Z -> Q -> Q -> list Q)
    (self : Interval) (a b : Q) (scales : scales_arg) (N : Z) :
  Interval_grid_shape self scales = Ok [N] ->
  ~ (AffineCOV.native_length (COV self) == 0)%Q ->
  FiniteInterval_grids build_grid self a b scales
  = Ok (GBare (VArr (problem_image (COV self) <$> build_grid N a b))).
Proof.
  intros Hgs Hn. unfold FiniteInterval_grids. rewrite Hgs.
  cbn -[AffineCOV.problem_coord]. rewrite getitem_head.
  cbn -[AffineCOV.problem_coord].
  rewrite problem_coord_array by exact Hn. reflexivity.
Qed.

(** [ParityInterval.grids] returns a one-element tuple. *)
Lemma ParityInterval_grids_tuple (self : Interval) (scales : scales_arg) (N : Z) :
  Interval_grid_shape self scales = Ok [N] ->
  ~ (AffineCOV.native_length (COV self) == 0)%Q ->
  ParityInterval_grids self scales
  = Ok (GTuple [VArr (problem_image (COV self) <$> Parity_native_grid N)]).
Proof.
  intros Hgs Hn. unfold ParityInterval_grids. rewrite Hgs.
  cbn -[AffineCOV.problem_coord Parity_native_grid]. rewrite getitem_head.
  cbn -[AffineCOV.problem_coord Parity_native_grid].
  rewrite problem_coord_array by exact Hn. reflexivity.
Qed.

(** [PeriodicInterval.grids] returns a one-element tuple. *)
Lemma PeriodicInterval_grids_tuple (self : Interval) (scales : scales_arg) (N : Z) :
  Interval_grid_shape self scales = Ok [N] ->
  ~ (AffineCOV.native_length (COV self) == 0)%Q ->
  PeriodicInterval_grids self scales
  = Ok (GTuple [VArr (problem_image (COV self) <$> Periodic_native_grid N)]).
Proof.
  intros Hgs Hn. unfold PeriodicInterval_grids. rewrite Hgs.
  cbn -[AffineCOV.problem_coord Periodic_native_grid]. rewrite getitem_head.
  cbn -[AffineCOV.problem_coord Periodic_native_grid].
  rewrite problem_coord_array by exact Hn. reflexivity.
Qed.

(** C3 does not hold of the code.  On a one-axis distributor, at scale 1:
    the constant space, a [PeriodicInterval] and a [ParityInterval] of
    size 4 return a one-element tuple holding the array of problem
    coordinates, but a [FiniteInterval] of size 4 returns that array
    itself, whatever the quadrature generator is: a value of as many
    entries as there are grid points, and no tuple. *)
Theorem FiniteInterval_grids_not_tuple (build_grid : Z -> Q -> Q -> list Q) :
  let d := {| dist_ident := 0; dim := 1 |} in
  (exists g, Space_grids build_grid (Constant_init d 0) (ScalesScalar 1)
             = Ok (GTuple [VArr g])) /\
  (exists sp g, PeriodicInterval_init "x" 4 (0, 1)%Q d 0 1 = Ok sp /\
                Space_grids build_grid sp (ScalesScalar 1) = Ok (GTuple [VArr g])) /\
  (exists sp g, ParityInterval_init "x" 4 (0, 1)%Q d 0 1 = Ok sp /\
                Space_grids build_grid sp (ScalesScalar 1) = Ok (GTuple [VArr g])) /\
  (exists sp cov,
      FiniteInterval_init 0 0 "x" 4 (-1, 1)%Q d 0 1 = Ok sp /\
      AffineCOV.init (-1, 1)%Q (-1, 1)%Q = Ok cov /\
      Space_grids build_grid sp (ScalesScalar 1)
      = Ok (GBare (VArr (problem_image cov <$> build_grid 4 0%Q 0%Q))) /\
      forall items, Space_grids build_grid sp (ScalesScalar 1) <> Ok (GTuple items)).
Proof.
  intros d. split; [|split; [|split]].
  - eexists. reflexivity.
  - do 2 eexists. split; [reflexivity|].
    cbn [Space_grids]. apply (PeriodicInterval_grids_tuple _ _ 4).
    + reflexivity.
    + intros H. discriminate H.
  - do 2 eexists. split; [reflexivity|].
    cbn [Space_grids]. apply (ParityInterval_grids_tuple _ _ 4).
    + reflexivity.
    + intros H. discriminate H.
  - do 2 eexists. split; [reflexivity|]. split; [reflexivity|].
    cbn [Space_grids].
    rewrite (FiniteInterval_grids_bare build_grid _ 0%Q 0%Q (ScalesScalar 1) 4).
    + split; [reflexivity|]. intros items H. discriminate H.
    + reflexivity.
    + intros H. discriminate H.
Qed.

(** ** Domain: expansion of the space list *)

Lemma position_in_range (len : nat) (i : Z) :
  0 <= i < Z.of_nat len -> position len i = Some (Z.to_nat i).
Proof.
  intros [H0 H1]. unfold position.
  apply Z.leb_le in H0. apply Z.ltb_lt in H1. now rewrite H0, H1.
Qed.

Lemma setitem_in_range {A : Type} (xs : list A) (i : Z) (v : A) :
  0 <= i < Z.of_nat (length xs) -> setitem xs i v = Ok (<[Z.to_nat i := v]> xs).
Proof. intros H. unfold setitem. now rewrite position_in_range. Qed.

Lemma getitem_in_range {A : Type} (xs : list A) (i : Z) (x : A) :
  0 <= i -> xs !! Z.to_nat i = Some x -> getitem xs i = Ok x.
Proof.
  intros H0 Hx. pose proof (lookup_lt_Some _ _ _ Hx).
  unfold getitem. rewrite position_in_range by lia. now rewrite Hx.
Qed.

(** Writing one object at each of a list of valid indices: the loop runs
    to its end, and every entry is either the object, at one of the
    indices, or what it was, at another position. *)
Lemma write_all_spec {A : Type} (v : A) (idx : list Z) (xs : list A) :
  (forall a, a ∈ idx -> 0 <= a < Z.of_nat (length xs)) ->
  exists xs', for_each (fun acc a => setitem acc a v) idx xs = Ok xs' /\
    length xs' = length xs /\
    forall p x, xs' !! p = Some x ->
      (x = v /\ Z.of_nat p ∈ idx) \/ (xs !! p = Some x /\ Z.of_nat p ∉ idx).
Proof.
  revert xs. induction idx as [|a rest IH]; intros xs Hr.
  - exists xs. split; [reflexivity|]. split; [reflexivity|].
    intros p x Hx. right. split; [exact Hx | apply not_elem_of_nil].
  - assert (Ha : 0 <= a < Z.of_nat (length xs)) by (apply Hr; left).
    destruct (IH (<[Z.to_nat a := v]> xs)) as (xs' & Hrun & Hlen & Hlook).
    { intros b Hb. rewrite length_insert. apply Hr. now right. }
    exists xs'. split; [|split].
    + cbn. rewrite setitem_in_range by exact Ha. exact Hrun.
    + now rewrite Hlen, length_insert.
    + intros p x Hx. apply Hlook in Hx as [[-> Hin]|[Hx Hnin]].
      * left. split; [reflexivity | now right].
      * apply list_lookup_insert_Some in Hx as [(Hp & -> & _)|[Hp Hx]].
        -- left. split; [reflexivity|]. subst p. rewrite Z2Nat.id by lia. left.
        -- right. split; [exact Hx|]. apply not_elem_of_cons. split; [|exact Hnin].
           intros E. apply Hp. rewrite <- E. apply Nat2Z.id.
Qed.

(** The loop of [expand_spaces]: every entry of the result is one of the
    given spaces, at one of its axes, or the entry of the initial list at a
    position no given space claims. *)
Lemma place_all_spec (spaces full : list Space) :
  (forall s a, s ∈ spaces -> a ∈ Space_axes s -> 0 <= a < Z.of_nat (length full)) ->
  exists full', for_each place_space spaces full = Ok full' /\
    length full' = length full /\
    forall p x, full' !! p = Some x ->
      (x ∈ spaces /\ Z.of_nat p ∈ Space_axes x) \/
      (full !! p = Some x /\ forall s, s ∈ spaces -> Z.of_nat p ∉ Space_axes s).
Proof.
  revert full. induction spaces as [|s rest IH]; intros full Hr.
  - exists full. split; [reflexivity|]. split; [reflexivity|].
    intros p x Hx. right. split; [exact Hx|]. intros s Hs.
    now apply elem_of_nil in Hs.
  - destruct (write_all_spec s (Space_axes s) full) as (f1 & Hrun1 & Hlen1 & Hlook1).
    { intros a Ha. apply (Hr s a); [left | exact Ha]. }
    destruct (IH f1) as (full' & Hrun & Hlen & Hlook).
    { intros s' a Hs' Ha. rewrite Hlen1. apply (Hr s' a); [now right | exact Ha]. }
    exists full'. split; [|split].
    + change (for_each place_space (s :: rest) full)
        with (place_space full s ≫= for_each place_space rest).
      change (place_space full s = Ok f1) in Hrun1.
      rewrite Hrun1. exact Hrun.
    + now rewrite Hlen, Hlen1.
    + intros p x Hx. apply Hlook in Hx as [[Hin Hax]|[Hx Hnone]].
      * left. split; [now right | exact Hax].
      * apply Hlook1 in Hx as [[-> Hax]|[Hx Hnin]].
        -- left. split; [left | exact Hax].
        -- right. split; [exact Hx|]. intros s' Hs'.
           apply elem_of_cons in Hs' as [->|Hs']; [exact Hnin | now apply Hnone].
Qed.

Lemma elem_of_foldl_intersection (a : Z) (rest : list (gset Z)) (s : gset Z) :
  a ∈ foldl (∩) s rest <-> a ∈ s /\ forall t, t ∈ rest -> a ∈ t.
Proof.
  revert s. induction rest as [|t rest IH]; intros s; cbn.
  - split; [intros H; split; [exact H|]|tauto].
    intros t Ht. now apply elem_of_nil in Ht.
  - rewrite IH, elem_of_intersection. split.
    + intros [[Hs Ht] Hr]. split; [exact Hs|]. intros u Hu.
      apply elem_of_cons in Hu as [->|Hu]; [exact Ht | now apply Hr].
    + intros [Hs Hr]. split; [split; [exact Hs | apply Hr; left]|].
      intros u Hu. apply Hr. now right.
Qed.

(** An axis lies in the intersection of the axis sets exactly when every
    space of the (non-empty) list claims it. *)
Lemma elem_of_axes_intersection (a : Z) (spaces : list Space) :
  spaces <> [] ->
  a ∈ set_intersection (map (fun space => list_to_set (Space_axes space)) spaces)
  <-> forall s, s ∈ spaces -> a ∈ Space_axes s.
Proof.
  destruct spaces as [|s0 rest]; [congruence|]. intros _. cbn.
  rewrite elem_of_foldl_intersection, elem_of_list_to_set. split.
  - intros [H0 Hr] s Hs. apply elem_of_cons in Hs as [->|Hs]; [exact H0|].
    apply (elem_of_list_to_set (C := gset Z)). apply Hr.
    rewrite map_is_fmap. apply list_elem_of_fmap. now exists s.
  - intros H. split; [apply H; left|]. intros t Ht.
    rewrite map_is_fmap in Ht. apply list_elem_of_fmap in Ht as (s & -> & Hs).
    apply elem_of_list_to_set. apply H. now right.
Qed.

Lemma unify_dist_shared (d : Distributor) (spaces : list Space) :
  spaces <> [] -> (forall s, s ∈ spaces -> Space_dist s = d) ->
  unify_dist spaces = Ok d.
Proof.
  destruct spaces as [|s0 rest]; [congruence|]. intros _ H. cbn.
  assert (H0 : Space_dist s0 = d) by (apply H; left). rewrite H0.
  assert (Hf : forallb (fun s' => bool_decide (Space_dist s' = d)) rest = true).
  { apply forallb_forall. intros s Hs. apply bool_decide_eq_true.
    apply H. right. now apply list_elem_of_In. }
  now rewrite Hf.
Qed.

Lemma constant_spaces_length (d : Distributor) :
  length (constant_spaces d) = dim d.
Proof. unfold constant_spaces. now rewrite length_map, length_seq. Qed.

Lemma constant_spaces_lookup (d : Distributor) (p : nat) (x : Space) :
  constant_spaces d !! p = Some x -> x = Constant_init d (Z.of_nat p).
Proof.
  unfold constant_spaces. rewrite map_is_fmap, list_lookup_fmap.
  destruct (seq 0 (dim d) !! p) as [i|] eqn:E; [|discriminate].
  apply lookup_seq in E as [-> _]. cbn. now intros [= <-].
Qed.

(** [expand_spaces] on spaces of one distributor, with axes in range and no
    axis common to all of them: it returns one entry per axis of the
    distributor, each entry being a given space at one of its axes, or the
    default constant space at an axis no given space claims. *)
Lemma expand_spaces_spec (d : Distributor) (spaces : list Space) :
  spaces <> [] ->
  (forall s, s ∈ spaces -> Space_dist s = d) ->
  no_common_axis spaces ->
  axes_in_range d spaces ->
  exists full, expand_spaces spaces = Ok full /\
    length full = dim d /\
    forall p x, full !! p = Some x ->
      (x ∈ spaces /\ Z.of_nat p ∈ Space_axes x) \/
      (x = Constant_init d (Z.of_nat p) /\
       forall s, s ∈ spaces -> Z.of_nat p ∉ Space_axes s).
Proof.
  intros Hne Hd Hno Hr.
  destruct (place_all_spec spaces (constant_spaces d)) as (full & Hrun & Hlen & Hlook).
  { intros s a Hs Ha. rewrite constant_spaces_length. now apply (Hr s a). }
  exists full. split; [|split].
  - unfold expand_spaces. rewrite (unify_dist_shared d) by assumption.
    cbn -[set_intersection].
    destruct (bool_decide (1 < length spaces)%nat) eqn:E1; [|exact Hrun].
    apply bool_decide_eq_true in E1.
    rewrite bool_decide_eq_false_2; [exact Hrun|].
    intros Hx. apply Hx. apply set_eq. intros a. split.
    + intros Ha. exfalso. apply (Hno E1 a).
      now apply elem_of_axes_intersection.
    + intros Ha. now apply elem_of_empty in Ha.
  - now rewrite Hlen, constant_spaces_length.
  - intros p x Hx. apply Hlook in Hx as [H|[Hx Hnone]]; [now left|].
    right. split; [now apply constant_spaces_lookup | exact Hnone].
Qed.

Lemma pairwise_disjoint_no_common (spaces : list Space) :
  pairwise_disjoint_axes spaces -> no_common_axis spaces.
Proof.
  intros Hdis Hlen a Hall.
  destruct spaces as [|s0 [|s1 rest]]; cbn in Hlen; try lia.
  assert (H : 0%nat = 1%nat); [|discriminate H].
  apply (Hdis 0%nat 1%nat s0 s1 a); try reflexivity.
  - apply Hall. left.
  - apply Hall. right. left.
Qed.

Lemma cache_lookup_head (key : list Space) (o : DomainObj) (cache : instance_cache) :
  cache_lookup key ((key, o) :: cache) = Some o.
Proof. cbn. now rewrite bool_decide_eq_true_2. Qed.

(** After a call of the class, the cache maps the key to the returned
    instance. *)
Lemma Domain_call_cached (cache : instance_cache) (spaces key : list Space) :
  Domain_preprocess_args spaces = Ok key -> key <> [] ->
  exists o cache1, Domain_call cache spaces = Ok (o, cache1) /\
                   cache_lookup key cache1 = Some o.
Proof.
  intros Hkey Hne. unfold Domain_call. rewrite Hkey. cbn.
  destruct (cache_lookup key cache) as [o|] eqn:E.
  - exists o, cache. split; [reflexivity | exact E].
  - destruct key as [|s0 rest]; [congruence|].
    unfold Domain_init. rewrite getitem_head. cbn.
    do 2 eexists. split; [reflexivity|]. apply cache_lookup_head.
Qed.

Lemma Domain_call_hit (cache : instance_cache) (spaces key : list Space)
    (o : DomainObj) :
  Domain_preprocess_args spaces = Ok key ->
  cache_lookup key cache = Some o ->
  Domain_call cache spaces = Ok (o, cache).
Proof. intros Hkey Hc. unfold Domain_call. rewrite Hkey. cbn. now rewrite Hc. Qed.

(** C4.  For a non-empty list of pairwise non-overlapping spaces of one
    distributor (with at least one axis, all axes of the spaces being axes
    of it), every permutation of the list is preprocessed to the same key,
    and that key is the full per-axis tuple: it has one entry per axis of
    the distributor, every given space sits at each of its axes, and every
    other entry is the default constant space of its axis.  The cache is
    searched and filled under that key, so that once the class has been
    called on the list, a call on the list again or on any permutation of
    it returns the instance of the first call and leaves the cache as it
    is. *)
Theorem Domain_order_independent (d : Distributor) (l1 l2 : list Space)
    (cache : instance_cache) :
  l1 <> [] ->
  (0 < dim d)%nat ->
  (forall s, s ∈ l1 -> Space_dist s = d) ->
  axes_in_range d l1 ->
  pairwise_disjoint_axes l1 ->
  l1 ≡ₚ l2 ->
  exists key o cache1,
    Domain_preprocess_args l1 = Ok key /\
    Domain_preprocess_args l2 = Ok key /\
    length key = dim d /\
    (forall s a, s ∈ l1 -> a ∈ Space_axes s -> key !! Z.to_nat a = Some s) /\
    (forall p x, key !! p = Some x ->
       (x ∈ l1 /\ Z.of_nat p ∈ Space_axes x) \/
       (x = Constant_init d (Z.of_nat p) /\
        forall s, s ∈ l1 -> Z.of_nat p ∉ Space_axes s)) /\
    Domain_call cache l1 = Ok (o, cache1) /\
    cache_lookup key cache1 = Some o /\
    Domain_call cache1 l1 = Ok (o, cache1) /\
    Domain_call cache1 l2 = Ok (o, cache1).
Proof.
  intros Hne Hdim Hd Hr Hdis Hperm.
  pose proof (pairwise_disjoint_no_common l1 Hdis) as Hno.
  assert (Hin : forall s, s ∈ l2 <-> s ∈ l1).
  { intros s. now rewrite Hperm. }
  destruct (expand_spaces_spec d l1) as (k1 & Hk1 & Hlen1 & Hlook1); try assumption.
  destruct (expand_spaces_spec d l2) as (k2 & Hk2 & Hlen2 & Hlook2).
  { intros ->. apply Permutation_nil_r in Hperm. contradiction. }
  { intros s Hs. apply Hd. now apply Hin. }
  { intros Hlen a Hall. apply (Hno ltac:(now rewrite Hperm) a).
    intros s Hs. apply Hall. now apply Hin. }
  { intros s a Hs Ha. apply (Hr s a); [now apply Hin | exact Ha]. }
  assert (Heq : k2 = k1).
  { apply list_eq. intros p.
    destruct (k1 !! p) as [x|] eqn:E1; destruct (k2 !! p) as [y|] eqn:E2;
      try reflexivity.
    - f_equal.
      apply Hlook1 in E1 as [[Hx Hax]|[-> Hnx]];
        apply Hlook2 in E2 as [[Hy Hay]|[-> Hny]].
      + apply Hin in Hy.
        apply list_elem_of_lookup in Hx as [i Hi].
        apply list_elem_of_lookup in Hy as [j Hj].
        assert (i = j) by (now apply (Hdis i j x y (Z.of_nat p))).
        subst j. congruence.
      + exfalso. apply (Hny x); [now apply Hin | exact Hax].
      + exfalso. apply (Hnx y); [now apply Hin | exact Hay].
      + reflexivity.
    - apply lookup_lt_Some in E1. apply lookup_ge_None in E2. lia.
    - apply lookup_lt_Some in E2. apply lookup_ge_None in E1. lia. }
  subst k2.
  assert (Hk : k1 <> []).
  { intros ->. cbn in Hlen1. lia. }
  destruct (Domain_call_cached cache l1 k1 Hk1 Hk) as (o & cache1 & Hcall & Hc).
  exists k1, o, cache1. split; [exact Hk1|]. split; [exact Hk2|].
  split; [exact Hlen1|]. split; [|split; [exact Hlook1|]].
  { intros s a Hs Ha. pose proof (Hr s a Hs Ha) as Hrange.
    destruct (lookup_lt_is_Some_2 k1 (Z.to_nat a) ltac:(lia)) as [x Hx].
    rewrite Hx. f_equal.
    destruct (Hlook1 _ _ Hx) as [[Hin1 Hax]|[_ Hfree]];
      rewrite Z2Nat.id in * by lia.
    - apply list_elem_of_lookup in Hin1 as [i Hi].
      apply list_elem_of_lookup in Hs as [j Hj].
      assert (i = j) by (now apply (Hdis i j x s a)).
      subst j. congruence.
    - exfalso. now apply (Hfree s). }
  split; [exact Hcall|]. split; [exact Hc|].
  split; eapply Domain_call_hit; eassumption.
Qed.

(** ** Domain: what construction stores *)

Lemma setitem_inv {A : Type} (xs xs1 : list A) (i : Z) (v : A) :
  setitem xs i v = Ok xs1 -> exists p, xs1 = <[p := v]> xs.
Proof.
  unfold setitem. destruct (position (length xs) i) as [p|]; [|discriminate].
  intros [= <-]. now exists p.
Qed.

Lemma write_all_inv {A : Type} (v : A) (idx : list Z) (xs xs' : list A) :
  for_each (fun acc a => setitem acc a v) idx xs = Ok xs' ->
  length xs' = length xs /\ forall x, x ∈ xs' -> x = v \/ x ∈ xs.
Proof.
  revert xs. induction idx as [|a rest IH]; intros xs.
  - cbn. intros [= <-]. split; [reflexivity | now right].
  - cbn [for_each].
    destruct (setitem xs a v) as [xs1|e] eqn:E; cbn [mbind result_bind];
      [|discriminate].
    apply setitem_inv in E as [p ->].
    intros H. apply IH in H as [Hlen Hin]. split.
    + now rewrite Hlen, length_insert.
    + intros x Hx. apply Hin in Hx as [->|Hx]; [now left|].
      apply list_elem_of_lookup in Hx as [i Hi].
      apply list_lookup_insert_Some in Hi as [(_ & -> & _)|[_ Hi]]; [now left|].
      right. eapply list_elem_of_lookup_2. exact Hi.
Qed.

Lemma place_all_inv (spaces full full' : list Space) :
  for_each place_space spaces full = Ok full' ->
  length full' = length full /\ forall x, x ∈ full' -> x ∈ spaces \/ x ∈ full.
Proof.
  revert full. induction spaces as [|s rest IH]; intros full.
  - cbn. intros [= <-]. split; [reflexivity | now right].
  - change (for_each place_space (s :: rest) full)
      with (place_space full s ≫= for_each place_space rest).
    destruct (place_space full s) as [f1|e] eqn:E1; [|discriminate].
    cbn. intros H. apply IH in H as [Hlen Hin].
    apply write_all_inv in E1 as [Hlen1 Hin1]. split.
    + now rewrite Hlen, Hlen1.
    + intros x Hx. apply Hin in Hx as [Hx|Hx]; [left; now right|].
      apply Hin1 in Hx as [->|Hx]; [left; left | now right].
Qed.

Lemma unify_dist_inv (spaces : list Space) (d : Distributor) :
  unify_dist spaces = Ok d -> forall s, s ∈ spaces -> Space_dist s = d.
Proof.
  destruct spaces as [|s0 rest]; [discriminate|]. cbn.
  destruct (forallb _ rest) eqn:Ef; [|discriminate].
  intros [= <-] s Hs. apply elem_of_cons in Hs as [->|Hs]; [reflexivity|].
  rewrite forallb_forall in Ef. apply list_elem_of_In, Ef in Hs.
  now apply bool_decide_eq_true in Hs.
Qed.

(** Whenever [expand_spaces] returns, its result has one entry per axis of
    the shared distributor, and every entry belongs to that distributor. *)
Lemma expand_spaces_inv (spaces key : list Space) :
  expand_spaces spaces = Ok key ->
  exists d, length key = dim d /\ forall x, x ∈ key -> Space_dist x = d.
Proof.
  unfold expand_spaces.
  destruct (unify_dist spaces) as [d|e] eqn:Ed; [|discriminate].
  cbn -[set_intersection].
  match goal with
  | |- (?c ≫= _) = _ -> _ => destruct c as [[]|e]; [|discriminate]
  end.
  cbn. intros H. apply place_all_inv in H as [Hlen Hin].
  exists d. split; [now rewrite Hlen, constant_spaces_length|].
  intros x Hx. apply Hin in Hx as [Hx|Hx].
  - now apply (unify_dist_inv spaces d Ed).
  - apply list_elem_of_lookup in Hx as [p Hp].
    apply constant_spaces_lookup in Hp as ->. reflexivity.
Qed.

(** Every domain the class constructs holds one space per axis of its
    distributor. *)
Lemma Domain_init_complete (spaces key : list Space) (dom : Domain) :
  Domain_preprocess_args spaces = Ok key -> Domain_init key = Ok dom ->
  Domain_spaces dom = key /\
  length (Domain_spaces dom) = dim (Domain_dist dom).
Proof.
  intros Hkey Hdom. apply expand_spaces_inv in Hkey as (d & Hlen & Hd).
  unfold Domain_init in Hdom.
  destruct key as [|s0 rest]; [discriminate|].
  rewrite getitem_head in Hdom. cbn in Hdom. injection Hdom as <-.
  cbn [Domain_spaces Domain_dist]. split; [reflexivity|].
  rewrite Hlen. f_equal. symmetry. apply Hd. left.
Qed.

(** ** Domain: shapes assembled axis by axis *)

Lemma for_each_ext {A S : Type} (body1 body2 : S -> A -> result S) (xs : list A)
    (acc : S) :
  (forall s x, body1 s x = body2 s x) ->
  for_each body1 xs acc = for_each body2 xs acc.
Proof.
  intros H. revert acc. induction xs as [|x xs IH]; intros acc; [reflexivity|].
  cbn. rewrite H. destruct (body2 acc x); cbn; [apply IH | reflexivity].
Qed.

(** Filling an array of zeros position by position, in order, is the same
    as collecting the entries. *)
Lemma assemble_loop (f : Z -> Space -> result Z) (sps : list Space)
    (done : list Z) (m : nat) :
  for_each (fun shape1 '(axis0, space0) =>
              entry ← f axis0 space0; setitem shape1 axis0 entry)
           (zip (map Z.of_nat (seq (length done) (length sps))) sps)
           (done ++ replicate (length sps + m) 0)
  = es ← mapM (fun '(axis0, space0) => f axis0 space0)
              (zip (map Z.of_nat (seq (length done) (length sps))) sps);
    Ok (done ++ es ++ replicate m 0).
Proof.
  revert done. induction sps as [|sp rest IH]; intros done; [reflexivity|].
  cbn [length seq map zip zip_with for_each mapM].
  change (replicate (S (length rest) + m) 0)
    with (0 :: replicate (length rest + m) 0).
  destruct (f (Z.of_nat (length done)) sp) as [entry|e];
    cbn -[setitem replicate]; [|reflexivity].
  rewrite setitem_in_range
    by (rewrite length_app; cbn [length]; rewrite length_replicate; lia).
  rewrite Nat2Z.id, insert_app_r_alt by lia.
  replace (length done - length done)%nat with 0%nat by lia.
  cbn -[replicate mapM for_each].
  specialize (IH (done ++ [entry])).
  rewrite length_app in IH. cbn [length] in IH.
  replace (length done + 1)%nat with (S (length done)) in IH by lia.
  rewrite <- app_assoc in IH. cbn [app] in IH. rewrite IH.
  destruct (mapM _ _) as [es|e]; cbn; [|reflexivity].
  now rewrite <- app_assoc.
Qed.

Lemma mapM_app_nil (m : result (list Z)) :
  (es ← m; Ok ([] ++ es ++ replicate 0 0)) = m.
Proof. destruct m as [es|e]; cbn; [now rewrite app_nil_r | reflexivity]. Qed.

(** The loop shared by [group_shape] and [global_coeff_shape], on a domain
    with one space per axis of its distributor. *)
Lemma assemble_by_axis (attr : Space -> list Z) (dom : Domain) :
  length (Domain_spaces dom) = dim (Domain_dist dom) ->
  for_each (fun shape1 '(axis0, space0) =>
              first ← getitem (Space_axes space0) 0;
              let subaxis := axis0 - first in
              entry ← getitem (attr space0) subaxis;
              setitem shape1 axis0 entry)
           (enumerate (Domain_spaces dom)) (np_zeros (dim (Domain_dist dom)))
  = mapM (fun '(axis0, space0) => sub_entry attr axis0 space0)
         (enumerate (Domain_spaces dom)).
Proof.
  intros Hlen.
  rewrite (for_each_ext _
             (fun shape1 '(axis0, space0) =>
                entry ← sub_entry attr axis0 space0; setitem shape1 axis0 entry)).
  - pose proof (assemble_loop (sub_entry attr) (Domain_spaces dom) [] 0) as H.
    cbn [length app] in H. rewrite Nat.add_0_r, Hlen in H.
    unfold enumerate, np_zeros. rewrite Hlen, H. apply mapM_app_nil.
  - intros shape1 [axis0 space0]. unfold sub_entry.
    destruct (getitem (Space_axes space0) 0); reflexivity.
Qed.

(** C9.  For every domain the class constructs (the instance made by
    [__init__] on the preprocessed argument), [group_shape] and
    [global_coeff_shape] collect, axis by axis, the entry that the space
    at that axis supplies at the offset of the axis from the first axis
    the space occupies, and fail exactly when one of these look-ups fails.
    For a [PeriodicInterval] of size 8 on axis 0 and a [FiniteInterval] of
    size 6 on axis 1 of a two-axis distributor the domain has
    [global_coeff_shape = (8, 6)] and [group_shape = (2, 1)]. *)
Theorem Domain_shapes_by_axis (spaces key : list Space) (dom : Domain) :
  Domain_preprocess_args spaces = Ok key ->
  Domain_init key = Ok dom ->
  Domain_group_shape dom
  = mapM (fun '(axis0, space0) => sub_entry Space_group_shape axis0 space0)
         (enumerate (Domain_spaces dom)) /\
  Domain_global_coeff_shape dom
  = mapM (fun '(axis0, space0) => sub_entry Space_shape axis0 space0)
         (enumerate (Domain_spaces dom)) /\
  (exists x y o cache,
      PeriodicInterval_init "x" 8 (0, 2 * np_pi)%Q {| dist_ident := 0; dim := 2 |} 0 1
      = Ok x /\
      FiniteInterval_init 0 0 "y" 6 (-1, 1)%Q {| dist_ident := 0; dim := 2 |} 1 1
      = Ok y /\
      Domain_call [] [x; y] = Ok (o, cache) /\
      Domain_spaces (obj o) = [x; y] /\
      Domain_global_coeff_shape (obj o) = Ok [8; 6] /\
      Domain_group_shape (obj o) = Ok [2; 1]).
Proof.
  intros Hkey Hdom.
  destruct (Domain_init_complete spaces key dom Hkey Hdom) as [_ Hlen].
  split; [|split].
  - apply (assemble_by_axis Space_group_shape dom Hlen).
  - apply (assemble_by_axis Space_shape dom Hlen).
  - do 4 eexists. split; [vm_compute; reflexivity|].
    split; [vm_compute; reflexivity|].
    split; [vm_compute; reflexivity|].
    split; [reflexivity|]. split; vm_compute; reflexivity.
Qed.

Lemma Domain_shapes_by_axis_witness :
  exists x y dom,
    PeriodicInterval_init "x" 8 (0, 2 * np_pi)%Q {| dist_ident := 0; dim := 2 |} 0 1
    = Ok x /\
    FiniteInterval_init 0 0 "y" 6 (-1, 1)%Q {| dist_ident := 0; dim := 2 |} 1 1
    = Ok y /\
    Domain_init [x; y] = Ok dom /\
    Domain_group_shape dom
    = mapM (fun '(axis0, space0) => sub_entry Space_group_shape axis0 space0)
           (enumerate (Domain_spaces dom)).
Proof.
  do 3 eexists. split; [vm_compute; reflexivity|].
  split; [vm_compute; reflexivity|]. split; [vm_compute; reflexivity|].
  match goal with
  | |- Domain_group_shape ?d = _ =>
      eapply (Domain_shapes_by_axis (Domain_spaces d) (Domain_spaces d) d)
  end.
  - vm_compute; reflexivity.
  - vm_compute; reflexivity.
Defined.

(** ** Domain: what the overlap check detects *)

(** The check of [expand_spaces] fires when one axis is claimed by every
    space of the list. *)
Lemma expand_spaces_common_axis (d : Distributor) (spaces : list Space) (a : Z) :
  (1 < length spaces)%nat ->
  (forall s, s ∈ spaces -> Space_dist s = d) ->
  (forall s, s ∈ spaces -> a ∈ Space_axes s) ->
  expand_spaces spaces = Raise (ValueError "Overlapping spaces specified.").
Proof.
  intros Hlen Hd Hall.
  assert (Hne : spaces <> []) by (intros ->; cbn in Hlen; lia).
  unfold expand_spaces. rewrite (unify_dist_shared d) by assumption.
  cbn -[set_intersection].
  rewrite bool_decide_eq_true_2 by exact Hlen.
  rewrite bool_decide_eq_true_2; [reflexivity|].
  intros Hempty.
  assert (Ha : a ∈ set_intersection
                 (map (fun space => list_to_set (Space_axes space)) spaces)).
  { now apply elem_of_axes_intersection. }
  rewrite Hempty in Ha. now apply elem_of_empty in Ha.
Qed.

(** C1 does not hold of the code.  Two spaces that both claim axis 0 are
    rejected when they are the whole list, but with a third space on axis
    1 added the intersection of all three axis sets is empty, the check
    passes, and the second space silently replaces the first in the
    result. *)
Theorem expand_spaces_misses_overlap :
  exists x y z,
    PeriodicInterval_init "x" 8 (0, 1)%Q {| dist_ident := 0; dim := 2 |} 0 1 = Ok x /\
    FiniteInterval_init 0 0 "y" 6 (-1, 1)%Q {| dist_ident := 0; dim := 2 |} 0 1 = Ok y /\
    FiniteInterval_init 0 0 "z" 4 (-1, 1)%Q {| dist_ident := 0; dim := 2 |} 1 1 = Ok z /\
    0 ∈ Space_axes x /\ 0 ∈ Space_axes y /\
    expand_spaces [x; y] = Raise (ValueError "Overlapping spaces specified.") /\
    expand_spaces [x; y; z] = Ok [y; z].
Proof.
  do 3 eexists. split; [vm_compute; reflexivity|].
  split; [vm_compute; reflexivity|]. split; [vm_compute; reflexivity|].
  split; [cbn; left|]. split; [cbn; left|].
  split; vm_compute; reflexivity.
Qed.

Lemma Domain_order_independent_witness :
  exists x y,
    PeriodicInterval_init "x" 8 (0, 2 * np_pi)%Q {| dist_ident := 0; dim := 2 |} 0 1
    = Ok x /\
    FiniteInterval_init 0 0 "y" 6 (-1, 1)%Q {| dist_ident := 0; dim := 2 |} 1 1
    = Ok y /\
    exists key o cache1,
      Domain_preprocess_args [x; y] = Ok key /\
      Domain_preprocess_args [y; x] = Ok key /\
      length key = 2%nat /\
      (forall s a, s ∈ [x; y] -> a ∈ Space_axes s -> key !! Z.to_nat a = Some s) /\
      (forall p z, key !! p = Some z ->
         (z ∈ [x; y] /\ Z.of_nat p ∈ Space_axes z) \/
         (z = Constant_init {| dist_ident := 0; dim := 2 |} (Z.of_nat p) /\
          forall s, s ∈ [x; y] -> Z.of_nat p ∉ Space_axes s)) /\
      Domain_call [] [x; y] = Ok (o, cache1) /\
      cache_lookup key cache1 = Some o /\
      Domain_call cache1 [x; y] = Ok (o, cache1) /\
      Domain_call cache1 [y; x] = Ok (o, cache1).
Proof.
  do 2 eexists. split; [vm_compute; reflexivity|].
  split; [vm_compute; reflexivity|].
  match goal with
  | |- exists key o cache1, Domain_preprocess_args ?l1 = _ /\
                            Domain_preprocess_args ?l2 = _ /\ _ =>
      apply (Domain_order_independent {| dist_ident := 0; dim := 2 |} l1 l2 [])
  end.
  - discriminate.
  - cbn. lia.
  - intros s Hs. apply elem_of_cons in Hs as [->|Hs]; [reflexivity|].
    apply list_elem_of_singleton in Hs as ->. reflexivity.
  - intros s a Hs Ha. apply elem_of_cons in Hs as [->|Hs].
    + apply list_elem_of_singleton in Ha as ->. cbn. lia.
    + apply list_elem_of_singleton in Hs as ->.
      apply list_elem_of_singleton in Ha as ->. cbn. lia.
  - intros i j si sj a Hi Hj Hai Haj.
    destruct i as [|[|i]], j as [|[|j]]; cbn in Hi, Hj; try discriminate;
      try reflexivity; injection Hi as <-; injection Hj as <-;
      apply list_elem_of_singleton in Hai, Haj; subst a; discriminate Haj.
  - apply perm_swap.
Defined.

(** * Further properties of the code *)

(** ** AffineCOV: slopes, endpoints, order *)

(** The object [init] returns, field by field. *)
Lemma AffineCOV_init_fields (nl nr pl pr : Q) (cov : AffineCOV.t) :
  AffineCOV.init (nl, nr) (pl, pr) = Ok cov ->
  ~ (nr - nl == 0)%Q /\ ~ (pr - pl == 0)%Q /\
  cov = (AffineCOV.Build (nl, nr) (pl, pr) nl nr (nr - nl) pl pr (pr - pl)
           ((nr - nl) / (pr - pl)) ((pl + pr) / 2) ((nl + nr) / 2)
           ((pr - pl) / (nr - nl)))%Q.
Proof.
  unfold AffineCOV.init.
  destruct (div_cases (nr - nl) (pr - pl)) as [[Hp ->]|[Hp ->]]; [discriminate|].
  destruct (div_cases (pr - pl) (nr - nl)) as [[Hn ->]|[Hn ->]]; [discriminate|].
  cbn. intros [= <-]. repeat split; assumption.
Qed.

(** X1.  On every map that construction returns, [native_jacobian] does not
    depend on its argument and returns the stored [jacobian]; [jacobian]
    and [stretch] are reciprocal; and they are the slopes of [native_coord]
    and of [problem_coord]: differences of coordinates are scaled by
    them. *)
Theorem AffineCOV_slopes (nb pb : Q * Q) (cov : AffineCOV.t) :
  AffineCOV.init nb pb = Ok cov ->
  (AffineCOV.jacobian cov * AffineCOV.stretch cov == 1)%Q /\
  (forall c, exists j, AffineCOV.native_jacobian cov c = Ok j /\
                       (j == AffineCOV.jacobian cov)%Q) /\
  (forall y1 y2, exists x1 x2,
      AffineCOV.native_coord cov (CNum y1) = Ok (VNum x1) /\
      AffineCOV.native_coord cov (CNum y2) = Ok (VNum x2) /\
      (x2 - x1 == AffineCOV.jacobian cov * (y2 - y1))%Q) /\
  (forall x1 x2, exists y1 y2,
      AffineCOV.problem_coord cov (CNum x1) = Ok (VNum y1) /\
      AffineCOV.problem_coord cov (CNum x2) = Ok (VNum y2) /\
      (y2 - y1 == AffineCOV.stretch cov * (x2 - x1))%Q).
Proof.
  destruct nb as [nl nr], pb as [pl pr]. intros H.
  apply AffineCOV_init_fields in H as (Hn & Hp & ->).
  unfold AffineCOV.native_jacobian, AffineCOV.native_coord,
    AffineCOV.problem_coord, AffineCOV.to_native, AffineCOV.to_problem.
  cbn [AffineCOV.jacobian AffineCOV.stretch AffineCOV.native_length
       AffineCOV.problem_length AffineCOV.native_left AffineCOV.problem_left].
  split; [field; split; assumption|]. split; [|split].
  - intros _. eexists. rewrite div_nonzero by exact Hp. split; reflexivity.
  - intros y1 y2. do 2 eexists. rewrite !div_nonzero by exact Hp. cbn.
    split; [reflexivity|]. split; [reflexivity|]. field. exact Hp.
  - intros x1 x2. do 2 eexists. rewrite !div_nonzero by exact Hn. cbn.
    split; [reflexivity|]. split; [reflexivity|]. field. exact Hn.
Qed.

Lemma AffineCOV_slopes_witness :
  exists cov, AffineCOV.init (-1, 1)%Q (0, 4)%Q = Ok cov /\
              (AffineCOV.jacobian cov * AffineCOV.stretch cov == 1)%Q.
Proof.
  eexists. split; [reflexivity|].
  eapply (AffineCOV_slopes (-1, 1)%Q (0, 4)%Q). reflexivity.
Defined.



Lemma problem_image_increasing (cov : AffineCOV.t) (x1 x2 : Q) :
  (0 < AffineCOV.native_length cov)%Q -> (0 < AffineCOV.problem_length cov)%Q ->
  (x1 < x2)%Q -> (problem_image cov x1 < problem_image cov x2)%Q.
Proof.
  intros HL HP Hx. unfold problem_image.
  apply Qplus_lt_r. apply Qmult_lt_r; [exact HP|].
  unfold Qdiv. apply Qmult_lt_r; [now apply Qinv_lt_0_compat|].
  unfold Qminus. now apply Qplus_lt_l.
Qed.



(** ** Spaces: the outcome of construction *)





(** What is known of a space returned by a constructor. *)
Lemma constructed_inv (d : Distributor) (sp : Space) :
  constructed d sp ->
  Space_dist sp = d /\
  exists ax, Space_axes sp = [ax] /\ Space_shape sp = [coeff_size sp] /\
    (exists g, Space_group_shape sp = [g]) /\
    match sp with
    | Constant _ _ => True
    | PeriodicInterval base _ | ParityInterval base _ | FiniteInterval base _ _ =>
        dist base = d /\ axis base = ax /\ shape base = [size base] /\
        ~ (AffineCOV.native_length (COV base) == 0)%Q /\
        ~ (AffineCOV.problem_length (COV base) == 0)%Q
    end.
Proof.
  intros [axis0|cls a b name0 size0 bounds0 axis0 dealias0 sp' H].
  - split; [reflexivity|]. exists axis0. cbn. repeat split. now exists 1.
  - apply Interval_new_inv in H as (base & Hb & ->).
    apply Interval_init_inv in Hb
      as (Hsize & Hshape & Hdist & Haxis & Haxes & _ & Hcov & _).
    apply AffineCOV_init_inv in Hcov as (Hn & Hp & _).
    destruct cls; cbn; (split; [exact Hdist|]); exists axis0;
      rewrite Hsize; repeat split; try assumption; eexists; reflexivity.
Qed.

(** ** Spaces: grid shape away from the distributor's axes *)

Lemma slice_empty {A : Type} (xs : list A) (i : Z) :
  Z.of_nat (length xs) <= i \/ i = -1 -> slice xs i (i + 1) = [].
Proof.
  intros H. unfold slice, slice_bound.
  destruct H as [H| ->].
  - destruct (i <? 0) eqn:E1; [lia|]. destruct (i + 1 <? 0) eqn:E2; [lia|].
    replace (Z.to_nat (Z.min (i + 1) (Z.of_nat (length xs)))
             - Z.to_nat (Z.min i (Z.of_nat (length xs))))%nat with 0%nat by lia.
    reflexivity.
  - change (-1 <? 0) with true. change (-1 + 1) with 0.
    change (0 <? 0) with false. cbv iota.
    replace (Z.to_nat (Z.min 0 (Z.of_nat (length xs)))
             - Z.to_nat (Z.max (Z.of_nat (length xs) + -1) 0))%nat with 0%nat by lia.
    reflexivity.
Qed.

(** X5.  An interval whose axis is not below the distributor's axis count,
    or is [-1], gets no scale out of the slice [scales[axis:axis+1]]:
    [grid_shape] returns the empty tuple without complaint, and each
    [grids] method then fails with [IndexError] on [grid_shape(scales)[0]]. *)
Theorem grid_shape_off_axis (build_grid : Z -> Q -> Q -> list Q)
    (self : Interval) (a b : Q) (scales : scales_arg) (ss : list number) :
  remedy_scales (dist self) scales = Ok ss ->
  Z.of_nat (dim (dist self)) <= axis self \/ axis self = -1 ->
  Interval_grid_shape self scales = Ok [] /\
  PeriodicInterval_grids self scales = Raise IndexError /\
  ParityInterval_grids self scales = Raise IndexError /\
  FiniteInterval_grids build_grid self a b scales = Raise IndexError.
Proof.
  intros Hr Hax.
  assert (Hgs : Interval_grid_shape self scales = Ok []).
  { unfold Interval_grid_shape. rewrite Hr. cbn [mbind result_bind].
    unfold Interval_dim. rewrite slice_empty; [reflexivity|].
    apply remedy_scales_inv in Hr as [-> _]. exact Hax. }
  split; [exact Hgs|].
  unfold PeriodicInterval_grids, ParityInterval_grids, FiniteInterval_grids.
  rewrite Hgs. repeat split.
Qed.

Lemma grid_shape_off_axis_witness :
  exists sp base,
    ParityInterval_init "x" 4 (0, 1)%Q {| dist_ident := 0; dim := 1 |} 1 1 = Ok sp /\
    sp = ParityInterval base 3 /\
    Interval_grid_shape base (ScalesScalar 1) = Ok [] /\
    ParityInterval_grids base (ScalesScalar 1) = Raise IndexError.
Proof.
  do 2 eexists. split; [vm_compute; reflexivity|]. split; [reflexivity|].
  match goal with
  | |- Interval_grid_shape ?b _ = _ /\ _ =>
      destruct (grid_shape_off_axis (fun _ _ _ => []) b 0 0 (ScalesScalar 1) [PyInt 1])
        as (H1 & _ & H2 & _)
  end.
  - reflexivity.
  - left. cbn. lia.
  - split; [exact H1 | exact H2].
Defined.

(** ** Spaces: the grids of the periodic and parity intervals *)


Lemma inject_Z_nat_lt (i : nat) (N : Z) :
  (i < Z.to_nat N)%nat -> (inject_Z (Z.of_nat i) + 1 <= inject_Z N)%Q.
Proof.
  intros H. change 1%Q with (inject_Z 1). rewrite <- inject_Z_plus.
  rewrite <- Zle_Qle. lia.
Qed.

Lemma inject_Z_nat_nonneg (i : nat) : (0 <= inject_Z (Z.of_nat i))%Q.
Proof. change 0%Q with (inject_Z 0). rewrite <- Zle_Qle. lia. Qed.

Lemma inject_Z_pos (N : Z) : 1 <= N -> (0 < inject_Z N)%Q.
Proof. intros H. change 0%Q with (inject_Z 0). rewrite <- Zlt_Qlt. lia. Qed.

(** [c * t / n] is increasing in [t], for positive [c] and [n]. *)
Lemma scaled_fraction_lt (c t1 t2 n : Q) :
  (0 < c)%Q -> (0 < n)%Q -> (t1 < t2)%Q -> (c * t1 / n < c * t2 / n)%Q.
Proof.
  intros Hc Hn Ht. unfold Qdiv. apply Qmult_lt_r; [now apply Qinv_lt_0_compat|].
  now apply Qmult_lt_l.
Qed.

Lemma scaled_fraction_below (c t n : Q) :
  (0 < c)%Q -> (0 < n)%Q -> (t < n)%Q -> (c * t / n < c)%Q.
Proof.
  intros Hc Hn Ht. apply Qlt_shift_div_r; [exact Hn|]. now apply Qmult_lt_l.
Qed.

Lemma scaled_fraction_nonneg (c t n : Q) :
  (0 < c)%Q -> (0 < n)%Q -> (0 <= t)%Q -> (0 <= c * t / n)%Q.
Proof.
  intros Hc Hn Ht. apply Qle_shift_div_l; [exact Hn|]. rewrite Qmult_0_l.
  apply Qmult_le_0_compat; [now apply Qlt_le_weak | exact Ht].
Qed.





(** Signs of the lengths and images of the native end points, for a map
    returned by [init]. *)
Lemma problem_image_endpoints (nl nr pl pr : Q) (cov : AffineCOV.t) :
  AffineCOV.init (nl, nr) (pl, pr) = Ok cov ->
  (problem_image cov nl == pl)%Q /\ (problem_image cov nr == pr)%Q /\
  ((nl < nr)%Q -> (0 < AffineCOV.native_length cov)%Q) /\
  ((pl < pr)%Q -> (0 < AffineCOV.problem_length cov)%Q).
Proof.
  intros H. apply AffineCOV_init_fields in H as (Hn & Hp & ->).
  unfold problem_image.
  cbn [AffineCOV.native_length AffineCOV.problem_length AffineCOV.native_left
       AffineCOV.problem_left].
  split; [field; exact Hn|]. split; [field; exact Hn|].
  split; intros Hlt; now apply Qlt_minus_iff in Hlt.
Qed.

(** X7.  A [PeriodicInterval] of size [N >= 1] on an axis of its
    distributor, built over problem bounds given left to right, returns at
    scale 1 a strictly increasing grid whose points all lie in the
    half-open problem interval [[left, right)]: the right end point is
    never a grid point.  Its size is even and [2*kmax + 2 = N]. *)
Theorem PeriodicInterval_grid_increasing (build_grid : Z -> Q -> Q -> list Q)
    (name0 : string) (N : Z) (bounds0 : Q * Q) (dist0 : Distributor)
    (axis0 : Z) (dealias0 : Q) (sp : Space) :
  1 <= N ->
  PeriodicInterval_init name0 N bounds0 dist0 axis0 dealias0 = Ok sp ->
  0 <= axis0 < Z.of_nat (dim dist0) ->
  (bounds0.1 < bounds0.2)%Q ->
  exists base kmax g,
    sp = PeriodicInterval base kmax /\ 2 * kmax + 2 = N /\
    Space_grids build_grid sp (ScalesScalar 1) = Ok (GTuple [VArr g]) /\
    (forall i j xi xj, g !! i = Some xi -> g !! j = Some xj ->
                       (i < j)%nat -> (xi < xj)%Q) /\
    (forall i x, g !! i = Some x -> (bounds0.1 <= x)%Q /\ (x < bounds0.2)%Q).
Proof.
  intros HN Hsp Hax Hb.
  apply (Interval_new_inv Periodic 0 0) in Hsp as (base & Hbase & ->).
  apply Interval_init_inv in Hbase
    as (_ & Hshape & Hdist & Haxis & _ & _ & Hcov & Hmod).
  destruct bounds0 as [pl pr]. cbn [fst snd] in Hb.
  change (native_bounds Periodic) with (0, 2 * np_pi)%Q in Hcov.
  assert (HNq : (0 < inject_Z N)%Q) by (now apply inject_Z_pos).
  assert (H2pi : (0 < 2 * np_pi)%Q) by reflexivity.
  destruct (problem_image_endpoints _ _ _ _ _ Hcov) as (El & Er & HL & HP).
  specialize (HL H2pi). specialize (HP Hb).
  assert (Hn' : ~ (AffineCOV.native_length (COV base) == 0)%Q).
  { intros E. rewrite E in HL. discriminate HL. }
  assert (Hgs : Interval_grid_shape base (ScalesScalar 1) = Ok [N]).
  { apply Interval_grid_shape_unit; [exact Hshape|]. now rewrite Hdist, Haxis. }
  assert (Hlook : forall i x,
             (problem_image (COV base) <$> Periodic_native_grid N) !! i = Some x ->
             (i < Z.to_nat N)%nat /\
             x = problem_image (COV base)
                   (2 * np_pi * inject_Z (Z.of_nat i) / inject_Z N)%Q).
  { intros i x Hx. rewrite list_lookup_fmap in Hx.
    destruct (Periodic_native_grid N !! i) as [t|] eqn:Et; [|discriminate].
    pose proof (lookup_lt_Some _ _ _ Et) as Hi.
    rewrite Periodic_native_grid_length in Hi. split; [exact Hi|].
    rewrite Periodic_native_grid_lookup in Et by exact Hi.
    cbn in Hx. congruence. }
  exists base, ((N - 1) / 2), (problem_image (COV base) <$> Periodic_native_grid N).
  split; [reflexivity|]. split.
  { specialize (Hmod 2 eq_refl). Z.div_mod_to_equations. lia. }
  split.
  { cbn [Space_grids]. now apply PeriodicInterval_grids_tuple. }
  split.
  - intros i j xi xj Hxi Hxj Hij.
    apply Hlook in Hxi as [_ ->]. apply Hlook in Hxj as [_ ->].
    apply problem_image_increasing; [exact HL | exact HP |].
    apply scaled_fraction_lt; [exact H2pi | exact HNq |].
    rewrite <- Zlt_Qlt. lia.
  - intros i x Hx. apply Hlook in Hx as [Hi ->].
    pose proof (inject_Z_nat_nonneg i) as H0.
    pose proof (inject_Z_nat_lt i N Hi) as H1.
    split.
    + rewrite <- El.
      assert (Hz : (0 <= 2 * np_pi * inject_Z (Z.of_nat i) / inject_Z N)%Q)
        by (now apply scaled_fraction_nonneg).
      apply Qle_lteq in Hz as [Hlt|Heq].
      * apply Qlt_le_weak. now apply problem_image_increasing.
      * unfold problem_image. rewrite <- Heq. apply Qle_refl.
    + rewrite <- Er. apply problem_image_increasing; [exact HL | exact HP |].
      apply scaled_fraction_below; [exact H2pi | exact HNq | lra].
Qed.

Lemma PeriodicInterval_grid_increasing_witness :
  exists sp g,
    PeriodicInterval_init "x" 8 (0, 1)%Q {| dist_ident := 0; dim := 1 |} 0 1 = Ok sp /\
    Space_grids (fun _ _ _ => []) sp (ScalesScalar 1) = Ok (GTuple [VArr g]) /\
    (forall i x, g !! i = Some x -> (0 <= x)%Q /\ (x < 1)%Q).
Proof.
  destruct (PeriodicInterval_grid_increasing (fun _ _ _ => []) "x" 8 (0, 1)%Q
              {| dist_ident := 0; dim := 1 |} 0 1
              (PeriodicInterval
                 {| name := "x"; size := 8; shape := [8]; bounds := (0, 1)%Q;
                    dist := {| dist_ident := 0; dim := 1 |}; axis := 0;
                    axes := [0]; dealias := 1;
                    COV := AffineCOV.Build (0, 2 * np_pi)%Q (0, 1)%Q 0
                             (2 * np_pi) (2 * np_pi - 0) 0 1 (1 - 0)
                             ((2 * np_pi - 0) / (1 - 0)) ((0 + 1) / 2)
                             ((0 + 2 * np_pi) / 2)
                             ((1 - 0) / (2 * np_pi - 0)) |} 3))
    as (base & kmax & g & _ & _ & Hg & _ & Hrange).
  - lia.
  - reflexivity.
  - cbn. lia.
  - reflexivity.
  - eexists. exists g. split; [reflexivity|]. split; [exact Hg | exact Hrange].
Defined.

(** ** Domain: expansion of constructed spaces *)

Lemma expand_spaces_ok_inv (spaces key : list Space) :
  expand_spaces spaces = Ok key ->
  spaces <> [] /\ no_common_axis spaces /\
  exists d, forall s, s ∈ spaces -> Space_dist s = d.
Proof.
  intros H.
  assert (Hne : spaces <> []).
  { intros ->. discriminate H. }
  destruct (unify_dist spaces) as [d|e] eqn:Ed.
  - pose proof (unify_dist_inv spaces d Ed) as Hd.
    split; [exact Hne|]. split; [|now exists d].
    intros Hlen a Hall.
    rewrite (expand_spaces_common_axis d spaces a Hlen Hd Hall) in H.
    discriminate H.
  - unfold expand_spaces in H. rewrite Ed in H. discriminate H.
Qed.

(** The tuple [expand_spaces] returns for constructed spaces whose axes are
    axes of the distributor: at every position stands a constructed space
    whose one axis is that position, either one of the given spaces or the
    default constant space of an axis that no given space claims. *)
Lemma expand_constructed (d : Distributor) (spaces key : list Space) :
  (forall s, s ∈ spaces -> constructed d s) ->
  axes_in_range d spaces ->
  expand_spaces spaces = Ok key ->
  length key = dim d /\
  forall p x, key !! p = Some x ->
    constructed d x /\ Space_axes x = [Z.of_nat p] /\
    (x ∈ spaces \/
     (x = Constant_init d (Z.of_nat p) /\
      forall s, s ∈ spaces -> Z.of_nat p ∉ Space_axes s)).
Proof.
  intros Hc Hr Hkey.
  destruct (expand_spaces_ok_inv spaces key Hkey) as (Hne & Hno & _).
  destruct (expand_spaces_spec d spaces) as (full & Hfull & Hlen & Hlook);
    try assumption.
  { intros s Hs. now apply constructed_inv, Hc. }
  rewrite Hkey in Hfull. injection Hfull as <-.
  split; [exact Hlen|]. intros p x Hx.
  apply Hlook in Hx as [[Hin Hax]|[-> Hnone]].
  - split; [now apply Hc|]. split; [|now left].
    destruct (constructed_inv d x (Hc x Hin)) as (_ & ax & Hax' & _).
    rewrite Hax' in Hax |- *. apply list_elem_of_singleton in Hax. now rewrite Hax.
  - split; [constructor|]. split; [reflexivity|]. right. now split.
Qed.

(** X8.  [expand_spaces] is idempotent on constructed spaces: applied to
    the tuple it returned, it returns that tuple again.  Hence calling the
    class on the [spaces] attribute of a domain gives back that very
    domain. *)
Theorem expand_spaces_idempotent (d : Distributor) (spaces key : list Space) :
  (forall s, s ∈ spaces -> constructed d s) ->
  axes_in_range d spaces ->
  expand_spaces spaces = Ok key ->
  expand_spaces key = Ok key /\
  exists o cache1,
    Domain_call [] spaces = Ok (o, cache1) /\
    Domain_spaces (obj o) = key /\
    Domain_call cache1 (Domain_spaces (obj o)) = Ok (o, cache1).
Proof.
  intros Hc Hr Hkey.
  destruct (expand_constructed d spaces key Hc Hr Hkey) as (Hlen & Hent).
  destruct (expand_spaces_ok_inv spaces key Hkey) as (Hne & _ & _).
  assert (Hdim : (0 < dim d)%nat).
  { destruct spaces as [|s0 rest]; [congruence|].
    destruct (constructed_inv d s0 (Hc s0 ltac:(left))) as (_ & ax & Hax & _).
    assert (0 <= ax < Z.of_nat (dim d)); [|lia].
    apply (Hr s0 ax); [left | rewrite Hax; left]. }
  assert (Hkne : key <> []).
  { intros ->. cbn in Hlen. lia. }
  assert (Hidem : expand_spaces key = Ok key).
  { destruct (expand_spaces_spec d key) as (full & Hfull & Hflen & Hlook).
    - exact Hkne.
    - intros s Hs. apply list_elem_of_lookup in Hs as [p Hp].
      now apply constructed_inv, (Hent p s Hp).
    - intros Hl a Hall.
      destruct (lookup_lt_is_Some_2 key 0%nat ltac:(lia)) as [x0 H0].
      destruct (lookup_lt_is_Some_2 key 1%nat ltac:(lia)) as [x1 H1].
      pose proof (Hall x0 (list_elem_of_lookup_2 _ _ _ H0)) as A0.
      pose proof (Hall x1 (list_elem_of_lookup_2 _ _ _ H1)) as A1.
      destruct (Hent _ _ H0) as (_ & E0 & _).
      destruct (Hent _ _ H1) as (_ & E1 & _).
      rewrite E0 in A0. rewrite E1 in A1.
      apply list_elem_of_singleton in A0, A1. lia.
    - intros s a Hs Ha. apply list_elem_of_lookup in Hs as [p Hp].
      destruct (Hent _ _ Hp) as (_ & E & _). rewrite E in Ha.
      apply list_elem_of_singleton in Ha as ->.
      apply lookup_lt_Some in Hp. lia.
    - rewrite Hfull. f_equal. apply list_eq. intros p.
      destruct (full !! p) as [x|] eqn:E1; destruct (key !! p) as [y|] eqn:E2;
        try reflexivity.
      + f_equal. destruct (Hent _ _ E2) as (_ & Ey & _).
        apply Hlook in E1 as [[Hin Hax]|[_ Hnone]].
        * apply list_elem_of_lookup in Hin as [q Hq].
          destruct (Hent _ _ Hq) as (_ & Ex & _). rewrite Ex in Hax.
          apply list_elem_of_singleton in Hax.
          assert (q = p) by lia. subst q. congruence.
        * exfalso. apply (Hnone y (list_elem_of_lookup_2 _ _ _ E2)).
          rewrite Ey. left.
      + apply lookup_lt_Some in E1. apply lookup_ge_None in E2. lia.
      + apply lookup_lt_Some in E2. apply lookup_ge_None in E1. lia. }
  split; [exact Hidem|].
  destruct key as [|s0 rest] eqn:Ek; [congruence|].
  exists {| obj_id := 0; obj := {| Domain_dist := Space_dist s0;
                                   Domain_spaces := s0 :: rest |} |}.
  eexists. unfold Domain_call at 1. unfold Domain_preprocess_args at 1.
  rewrite Hkey. cbn [mbind result_bind cache_lookup].
  unfold Domain_init. rewrite getitem_head. cbn [mbind result_bind length].
  split; [reflexivity|]. split; [reflexivity|].
  cbn [obj Domain_spaces].
  apply (Domain_call_hit _ _ (s0 :: rest)); [exact Hidem|].
  apply cache_lookup_head.
Qed.

Lemma expand_spaces_idempotent_witness :
  exists x y,
    PeriodicInterval_init "x" 8 (0, 2 * np_pi)%Q {| dist_ident := 0; dim := 2 |} 0 1
    = Ok x /\
    FiniteInterval_init 0 0 "y" 6 (-1, 1)%Q {| dist_ident := 0; dim := 2 |} 1 1
    = Ok y /\
    exists key, expand_spaces [y; x] = Ok key /\ expand_spaces key = Ok key.
Proof.
  do 2 eexists. split; [vm_compute; reflexivity|].
  split; [vm_compute; reflexivity|].
  eexists. split; [vm_compute; reflexivity|].
  match goal with
  | |- expand_spaces [?x; ?y] = _ =>
      apply (expand_spaces_idempotent {| dist_ident := 0; dim := 2 |} [y; x] [x; y])
  end.
  - intros s Hs. apply elem_of_cons in Hs as [->|Hs].
    + apply (constructed_Interval _ Finite 0 0 "y" 6 (-1, 1)%Q 1 1).
      vm_compute; reflexivity.
    + apply list_elem_of_singleton in Hs as ->.
      apply (constructed_Interval _ Periodic 0 0 "x" 8 (0, 2 * np_pi)%Q 0 1).
      vm_compute; reflexivity.
  - intros s a Hs Ha. apply elem_of_cons in Hs as [->|Hs].
    + apply list_elem_of_singleton in Ha as ->. cbn. lia.
    + apply list_elem_of_singleton in Hs as ->.
      apply list_elem_of_singleton in Ha as ->. cbn. lia.
  - vm_compute; reflexivity.
Defined.

(** ** Domain: axes outside the distributor *)

Lemma setitem_cases {A : Type} (xs : list A) (i : Z) (v : A) :
  (- Z.of_nat (length xs) <= i < Z.of_nat (length xs) /\
   exists xs', setitem xs i v = Ok xs' /\ length xs' = length xs) \/
  (~ (- Z.of_nat (length xs) <= i < Z.of_nat (length xs)) /\
   setitem xs i v = Raise IndexError).
Proof.
  unfold setitem, position.
  destruct (0 <=? i) eqn:E1, (i <? Z.of_nat (length xs)) eqn:E2,
    (i <? 0) eqn:E3, (- Z.of_nat (length xs) <=? i) eqn:E4; cbn;
    try (left; split; [lia|]; eexists; split; [reflexivity|];
         apply length_insert);
    try (right; split; [lia | reflexivity]); lia.
Qed.

(** The loop writing one space either completes, all its axes being valid
    indices, or raises [IndexError], one axis not being one. *)
Lemma write_all_cases {A : Type} (v : A) (idx : list Z) (xs : list A) :
  ((forall a, a ∈ idx -> - Z.of_nat (length xs) <= a < Z.of_nat (length xs)) /\
   exists xs', for_each (fun acc a => setitem acc a v) idx xs = Ok xs' /\
               length xs' = length xs) \/
  ((exists a, a ∈ idx /\ ~ (- Z.of_nat (length xs) <= a < Z.of_nat (length xs))) /\
   for_each (fun acc a => setitem acc a v) idx xs = Raise IndexError).
Proof.
  revert xs. induction idx as [|a rest IH]; intros xs.
  - left. split; [intros a Ha; now apply elem_of_nil in Ha|].
    exists xs. split; reflexivity.
  - cbn [for_each].
    destruct (setitem_cases xs a v) as [(Ha & xs1 & -> & Hl1)|(Ha & ->)].
    + cbn [mbind result_bind].
      destruct (IH xs1) as [(Hr & xs' & Hrun & Hl)|((b & Hb & Hnb) & Hrun)].
      * left. split.
        -- intros c Hc. apply elem_of_cons in Hc as [->|Hc]; [exact Ha|].
           rewrite <- Hl1. now apply Hr.
        -- exists xs'. split; [exact Hrun | now rewrite Hl, Hl1].
      * right. split; [|exact Hrun]. exists b. split; [now right|].
        now rewrite <- Hl1.
    + right. split; [|reflexivity]. exists a. split; [left | exact Ha].
Qed.

Lemma place_all_cases (spaces full : list Space) :
  ((forall s a, s ∈ spaces -> a ∈ Space_axes s ->
                - Z.of_nat (length full) <= a < Z.of_nat (length full)) /\
   exists full', for_each place_space spaces full = Ok full') \/
  ((exists s a, s ∈ spaces /\ a ∈ Space_axes s /\
                ~ (- Z.of_nat (length full) <= a < Z.of_nat (length full))) /\
   for_each place_space spaces full = Raise IndexError).
Proof.
  revert full. induction spaces as [|s rest IH]; intros full.
  - left. split; [intros s a Hs; now apply elem_of_nil in Hs|].
    exists full. reflexivity.
  - change (for_each place_space (s :: rest) full)
      with (place_space full s ≫= for_each place_space rest).
    destruct (write_all_cases s (Space_axes s) full)
      as [(Hr & f1 & Hrun & Hl1)|((a & Ha & Hna) & Hrun)];
      change (place_space full s = Ok f1) in Hrun
      || change (place_space full s = Raise IndexError) in Hrun;
      rewrite Hrun; cbn [mbind result_bind].
    + destruct (IH f1) as [(Hrr & full' & Hrun')|((s' & a & Hs' & Ha & Hna) & Hrun')].
      * left. split; [|now exists full'].
        intros s' a Hs' Ha. apply elem_of_cons in Hs' as [->|Hs'];
          [now apply Hr|]. rewrite <- Hl1. now apply (Hrr s' a).
      * right. split; [|exact Hrun']. exists s', a.
        split; [now right|]. split; [exact Ha | now rewrite <- Hl1].
    + right. split; [|reflexivity]. exists s, a. split; [left|]. now split.
Qed.

(** X9.  When the spaces share their distributor and pass the overlap
    check, [expand_spaces] fails with [IndexError] exactly when some space
    has an axis that is not a valid index of the distributor's list of
    axes (below [-dim] or at least [dim]); otherwise it returns a tuple. *)
Theorem expand_spaces_index_error (d : Distributor) (spaces : list Space) :
  spaces <> [] ->
  (forall s, s ∈ spaces -> Space_dist s = d) ->
  no_common_axis spaces ->
  ((exists s a, s ∈ spaces /\ a ∈ Space_axes s /\
                ~ (- Z.of_nat (dim d) <= a < Z.of_nat (dim d))) ->
   expand_spaces spaces = Raise IndexError) /\
  ((forall s a, s ∈ spaces -> a ∈ Space_axes s ->
                - Z.of_nat (dim d) <= a < Z.of_nat (dim d)) ->
   exists key, expand_spaces spaces = Ok key /\ length key = dim d).
Proof.
  intros Hne Hd Hno.
  assert (Hloop : expand_spaces spaces
                  = for_each place_space spaces (constant_spaces d)).
  { unfold expand_spaces. rewrite (unify_dist_shared d) by assumption.
    cbn -[set_intersection].
    destruct (bool_decide (1 < length spaces)%nat) eqn:E1; [|reflexivity].
    apply bool_decide_eq_true in E1.
    rewrite bool_decide_eq_false_2; [reflexivity|].
    intros Hx. apply Hx. apply set_eq. intros a. split.
    - intros Ha. exfalso. apply (Hno E1 a). now apply elem_of_axes_intersection.
    - intros Ha. now apply elem_of_empty in Ha. }
  rewrite Hloop.
  destruct (place_all_cases spaces (constant_spaces d))
    as [(Hr & key & Hrun)|((s & a & Hs & Ha & Hna) & Hrun)];
    rewrite constant_spaces_length in *.
  - split.
    + intros (s & a & Hs & Ha & Hna). exfalso. apply Hna. now apply (Hr s a).
    + intros _. exists key. split; [exact Hrun|].
      apply place_all_inv in Hrun as [-> _]. apply constant_spaces_length.
  - split; [intros _; exact Hrun|].
    intros Hall. exfalso. apply Hna. now apply (Hall s a).
Qed.

Lemma expand_spaces_index_error_witness :
  exists x,
    FiniteInterval_init 0 0 "x" 4 (-1, 1)%Q {| dist_ident := 0; dim := 2 |} 2 1 = Ok x /\
    expand_spaces [x] = Raise IndexError.
Proof.
  eexists. split; [vm_compute; reflexivity|].
  match goal with
  | |- expand_spaces [?x] = _ =>
      apply (expand_spaces_index_error {| dist_ident := 0; dim := 2 |} [x])
  end.
  - discriminate.
  - intros s Hs. apply list_elem_of_singleton in Hs as ->. reflexivity.
  - intros Hlen. cbn in Hlen. lia.
  - eexists _, 2. split; [left|]. split; [left|]. cbn. lia.
Defined.

(** ** Domain: per-axis attributes of constructed spaces *)

Lemma mapM_pointwise {A C : Type} (f : A -> result C) (g : A -> C) (l : list A) :
  (forall x, x ∈ l -> f x = Ok (g x)) -> mapM f l = Ok (g <$> l).
Proof.
  induction l as [|x l IH]; intros H; [reflexivity|].
  cbn. rewrite (H x) by left. cbn. rewrite IH; [reflexivity|].
  intros y Hy. apply H. now right.
Qed.

Lemma enumerate_lookup {A : Type} (l : list A) (p : nat) (i : Z) (x : A) :
  enumerate l !! p = Some (i, x) <-> i = Z.of_nat p /\ l !! p = Some x.
Proof.
  unfold enumerate. rewrite lookup_zip_with_Some. split.
  - intros (i' & x' & [= -> ->] & Hi & Hx). split; [|exact Hx].
    rewrite map_is_fmap, list_lookup_fmap in Hi.
    destruct (seq 0 (length l) !! p) as [q|] eqn:E; [|discriminate].
    apply lookup_seq in E as [-> _]. cbn in Hi. now injection Hi as <-.
  - intros [-> Hx]. exists (Z.of_nat p), x. split; [reflexivity|].
    split; [|exact Hx].
    rewrite map_is_fmap, list_lookup_fmap, lookup_seq_lt; [reflexivity|].
    now apply lookup_lt_Some in Hx.
Qed.

Lemma enumerate_fmap_lookup {A C : Type} (g : Z * A -> C) (l : list A) (p : nat)
    (x : A) :
  l !! p = Some x -> (g <$> enumerate l) !! p = Some (g (Z.of_nat p, x)).
Proof.
  intros Hx. rewrite list_lookup_fmap.
  assert (H : enumerate l !! p = Some (Z.of_nat p, x)).
  { apply enumerate_lookup. now split. }
  now rewrite H.
Qed.

Lemma enumerate_length {A : Type} (l : list A) : length (enumerate l) = length l.
Proof.
  unfold enumerate. rewrite length_zip_with, length_map, length_seq. lia.
Qed.

Lemma mapM_pairwise {A B C : Type} (f : A -> result C) (g : B -> result C)
    (l1 : list A) (l2 : list B) :
  length l1 = length l2 ->
  (forall p x y, l1 !! p = Some x -> l2 !! p = Some y -> f x = g y) ->
  mapM f l1 = mapM g l2.
Proof.
  revert l2. induction l1 as [|x l1 IH]; intros [|y l2] Hlen H;
    try discriminate Hlen; [reflexivity|].
  cbn [mapM]. rewrite (H 0%nat x y eq_refl eq_refl).
  rewrite (IH l2); [reflexivity | now injection Hlen |].
  intros p x' y' Hx Hy. now apply (H (S p)).
Qed.

(** The grid shape a constructed space reports for a positive scalar
    scale, when its axis is an axis of the distributor. *)
Lemma constructed_grid_shape (d : Distributor) (sp : Space) (ax : Z) (s : number) :
  constructed d sp -> Space_axes sp = [ax] ->
  0 <= ax < Z.of_nat (dim d) -> (0 < number_val s)%Q ->
  Space_grid_shape sp (ScalesScalar s) = (k ← scaled_size s sp; Ok [k]).
Proof.
  intros Hc Hax Hr Hs.
  destruct (constructed_inv d sp Hc) as (_ & ax' & Hax' & _ & _ & Hb).
  rewrite Hax in Hax'. injection Hax' as <-.
  assert (Hi : forall base, dist base = d -> axis base = ax ->
                 shape base = [size base] ->
               Interval_grid_shape base (ScalesScalar s)
               = (k ← int_of_product s (size base); Ok [k])).
  { intros base Hd Ha Hsh.
    apply (Interval_grid_shape_at base (size base) (ScalesScalar s)
             (replicate (dim d) s) s).
    - exact Hsh.
    - rewrite Hd. now apply remedy_scales_scalar.
    - lia.
    - apply lookup_replicate_2. lia. }
  destruct sp; cbn [Space_grid_shape scaled_size]; [reflexivity|..];
    destruct Hb as (Hd & Ha & Hsh & _); now apply Hi.
Qed.

(** The remedied-scales loop of [_global_grid_shape] on the tuple of a
    constructed domain. *)
Lemma global_grid_shape_loop (d : Distributor) (key : list Space) (dom : Domain)
    (ss : list number) :
  Domain_dist dom = d -> Domain_spaces dom = key -> length key = dim d ->
  (forall p x, key !! p = Some x ->
               constructed d x /\ Space_axes x = [Z.of_nat p]) ->
  length ss = dim d -> (forall s, s ∈ ss -> (0 < number_val s)%Q) ->
  Domain__global_grid_shape dom ss
  = mapM (fun '(s, sp) => scaled_size s sp) (zip ss key).
Proof.
  intros Hd Hsp Hlen Hent Hls Hpos.
  set (f := fun (axis0 : Z) (space0 : Space) =>
              first ← getitem (Space_axes space0) 0;
              scale ← getitem ss axis0;
              gshape ← Space_grid_shape space0 (ScalesScalar scale);
              getitem gshape (axis0 - first)).
  unfold Domain__global_grid_shape. rewrite Hd, Hsp.
  rewrite (for_each_ext _
             (fun shape1 '(axis0, space0) =>
                entry ← f axis0 space0; setitem shape1 axis0 entry)).
  2:{ intros shape1 [axis0 space0]. unfold f.
      destruct (getitem (Space_axes space0) 0); cbn; [|reflexivity].
      destruct (getitem ss axis0) as [scale|e]; cbn; [|reflexivity].
      destruct (Space_grid_shape space0 (ScalesScalar scale)); reflexivity. }
  pose proof (assemble_loop f key [] 0) as H.
  cbn [length app] in H. rewrite Nat.add_0_r, Hlen in H.
  unfold enumerate in *. unfold np_zeros. rewrite Hlen, H, mapM_app_nil.
  clear H. rewrite <- Hlen.
  change (zip (map Z.of_nat (seq 0 (length key))) key) with (enumerate key).
  apply mapM_pairwise.
  - rewrite enumerate_length, length_zip_with. lia.
  - intros p [i x] [s x'] Hp Hz.
    apply enumerate_lookup in Hp as [-> Hx].
    apply lookup_zip_with_Some in Hz as (s' & x'' & [= <- <-] & Es & Hx').
    rewrite Hx in Hx'. injection Hx' as <-.
    destruct (Hent p x Hx) as [Hc Hax].
    pose proof (lookup_lt_Some _ _ _ Hx) as Hlt.
    unfold f. rewrite Hax, getitem_head. cbn [mbind result_bind].
    rewrite (getitem_in_range ss (Z.of_nat p) s)
      by (rewrite ?Nat2Z.id; first [lia | exact Es]).
    cbn [mbind result_bind].
    rewrite (constructed_grid_shape d x (Z.of_nat p) s Hc Hax) by
      (try lia; apply Hpos; eapply list_elem_of_lookup_2; exact Es).
    destruct (scaled_size s x) as [k|e]; [|reflexivity].
    cbn [mbind result_bind]. rewrite Z.sub_diag. apply getitem_head.
Qed.

(** The loop shared by [group_shape] and [global_coeff_shape], when every
    entry of the domain sits on its own axis and carries a one-entry
    attribute. *)
Lemma shape_loop_by_axis (attr : Space -> list Z) (g : Space -> Z)
    (d : Distributor) (key : list Space) (dom : Domain) :
  Domain_dist dom = d -> Domain_spaces dom = key -> length key = dim d ->
  (forall p x, key !! p = Some x ->
               Space_axes x = [Z.of_nat p] /\ attr x = [g x]) ->
  for_each (fun shape1 '(axis0, space0) =>
              first ← getitem (Space_axes space0) 0;
              let subaxis := axis0 - first in
              entry ← getitem (attr space0) subaxis;
              setitem shape1 axis0 entry)
           (enumerate (Domain_spaces dom)) (np_zeros (dim (Domain_dist dom)))
  = Ok (g <$> key).
Proof.
  intros Hd Hsp Hlen Hent.
  rewrite (assemble_by_axis attr dom) by (now rewrite Hsp, Hd).
  rewrite Hsp.
  rewrite (mapM_pointwise _ (fun '(_, space0) => g space0)).
  - f_equal. apply list_eq. intros p. rewrite (list_lookup_fmap g).
    destruct (key !! p) as [x|] eqn:Ex.
    + now rewrite (enumerate_fmap_lookup _ key p x Ex).
    + apply lookup_ge_None. rewrite length_fmap, enumerate_length.
      now apply lookup_ge_None.
  - intros [i x] Hin. apply list_elem_of_lookup in Hin as [p Hp].
    apply enumerate_lookup in Hp as [-> Hx].
    destruct (Hent p x Hx) as [Hax Hat].
    unfold sub_entry. rewrite Hax, getitem_head. cbn [mbind result_bind].
    rewrite Z.sub_diag, Hat. apply getitem_head.
Qed.

Lemma scaled_size_unit (sp : Space) : scaled_size 1 sp = Ok (coeff_size sp).
Proof.
  destruct sp; cbn [scaled_size coeff_size int_of_product]; try reflexivity;
    now rewrite Z.mul_1_l.
Qed.

(** The distributor and the tuple stored by [Domain.__init__] on the
    expansion of constructed spaces. *)
Lemma Domain_init_constructed (d : Distributor) (spaces key : list Space)
    (dom : Domain) :
  (forall s, s ∈ spaces -> constructed d s) ->
  axes_in_range d spaces ->
  expand_spaces spaces = Ok key -> Domain_init key = Ok dom ->
  Domain_dist dom = d /\ Domain_spaces dom = key /\ length key = dim d /\
  forall p x, key !! p = Some x ->
    constructed d x /\ Space_axes x = [Z.of_nat p] /\
    (x ∈ spaces \/
     (x = Constant_init d (Z.of_nat p) /\
      forall s, s ∈ spaces -> Z.of_nat p ∉ Space_axes s)).
Proof.
  intros Hc Hr Hkey Hdom.
  destruct (expand_constructed d spaces key Hc Hr Hkey) as (Hlen & Hent).
  unfold Domain_init in Hdom. destruct key as [|s0 rest]; [discriminate|].
  rewrite getitem_head in Hdom. cbn in Hdom. injection Hdom as <-.
  cbn [Domain_dist Domain_spaces]. split; [|split; [reflexivity|now split]].
  destruct (Hent 0%nat s0 eq_refl) as (Hc0 & _).
  now apply constructed_inv in Hc0.
Qed.

(** X10.  For a domain constructed from constructor-built spaces on axes of
    one distributor, and a scale argument the distributor accepts,
    [global_grid_shape] collects one entry per axis: 1 on an axis holding a
    constant space, and [int(scale_of_axis * size)] on an axis holding an
    interval, the product being exact for an [int] scale and the binary64
    float product for a float scale; it raises where one of the entries
    does.  [global_coeff_shape] lists the coefficient sizes, and at the
    [int] scale 1 the grid shape equals the coefficient shape. *)
Theorem Domain_global_grid_shape_entries (d : Distributor)
    (spaces key : list Space) (dom : Domain) (scales : scales_arg)
    (ss : list number) :
  (forall s, s ∈ spaces -> constructed d s) ->
  axes_in_range d spaces ->
  expand_spaces spaces = Ok key -> Domain_init key = Ok dom ->
  remedy_scales d scales = Ok ss ->
  Domain_global_grid_shape dom scales
  = mapM (fun '(s, sp) => scaled_size s sp) (zip ss key) /\
  Domain_global_coeff_shape dom = Ok (coeff_size <$> key) /\
  Domain_global_grid_shape dom (ScalesScalar 1) = Domain_global_coeff_shape dom.
Proof.
  intros Hc Hr Hkey Hdom Hss.
  destruct (Domain_init_constructed d spaces key dom Hc Hr Hkey Hdom)
    as (Hd & Hsp & Hlen & Hent).
  assert (Hent' : forall p x, key !! p = Some x ->
                    constructed d x /\ Space_axes x = [Z.of_nat p]).
  { intros p x Hx. destruct (Hent p x Hx) as (H1 & H2 & _). now split. }
  assert (Hgrid : forall sc ss', remedy_scales d sc = Ok ss' ->
            Domain_global_grid_shape dom sc
            = mapM (fun '(s, sp) => scaled_size s sp) (zip ss' key)).
  { intros sc ss' Hsc. unfold Domain_global_grid_shape. rewrite Hd, Hsc.
    cbn [mbind result_bind].
    destruct (remedy_scales_inv d sc ss' Hsc) as [Hl Hpos].
    now apply (global_grid_shape_loop d). }
  assert (Hcoeff : Domain_global_coeff_shape dom = Ok (coeff_size <$> key)).
  { apply (shape_loop_by_axis Space_shape coeff_size d key dom Hd Hsp Hlen).
    intros p x Hx. destruct (Hent' p x Hx) as [Hcx Hax]. split; [exact Hax|].
    now destruct (constructed_inv d x Hcx) as (_ & ax & _ & Hshape & _). }
  split; [now apply Hgrid|]. split; [exact Hcoeff|].
  rewrite Hcoeff.
  rewrite (Hgrid (ScalesScalar 1) (replicate (dim d) (PyInt 1)))
    by (now apply remedy_scales_scalar).
  rewrite (mapM_pointwise _ (fun '(_, sp) => coeff_size sp)).
  - f_equal. apply list_eq. intros p. rewrite !list_lookup_fmap.
    destruct (key !! p) as [x|] eqn:Ex.
    + assert (Hz : zip (replicate (dim d) (PyInt 1)) key !! p = Some (PyInt 1, x)).
      { apply lookup_zip_with_Some. exists (PyInt 1), x.
        split; [reflexivity|]. split; [|exact Ex].
        apply lookup_replicate_2. apply lookup_lt_Some in Ex. lia. }
      now rewrite Hz.
    + assert (Hz : zip (replicate (dim d) (PyInt 1)) key !! p = None).
      { apply lookup_ge_None. rewrite length_zip_with.
        apply lookup_ge_None in Ex. lia. }
      now rewrite Hz.
  - intros [s x] Hin. apply list_elem_of_lookup in Hin as [p Hp].
    apply lookup_zip_with_Some in Hp as (s' & x' & [= <- <-] & Es & _).
    apply lookup_replicate in Es as [-> _]. apply scaled_size_unit.
Qed.

Lemma Domain_global_grid_shape_entries_witness :
  exists x y,
    PeriodicInterval_init "x" 8 (0, 2 * np_pi)%Q {| dist_ident := 0; dim := 2 |} 0 1
    = Ok x /\
    FiniteInterval_init 0 0 "y" 10 (-1, 1)%Q {| dist_ident := 0; dim := 2 |} 1 1
    = Ok y /\
    exists dom,
      Domain_init [x; y] = Ok dom /\
      Domain_global_grid_shape dom
        (ScalesSeq [PyFloat (3 # 2);
                    PyFloat (3152519739159347 # 4503599627370496)])
      = Ok [12; 7] /\
      Domain_global_grid_shape dom
        (ScalesSeq [PyFloat (3 # 2);
                    PyFloat (3152519739159347 # 4503599627370496)])
      = mapM (fun '(s, sp) => scaled_size s sp)
             (zip [PyFloat (3 # 2);
                   PyFloat (3152519739159347 # 4503599627370496)] [x; y]).
Proof.
  do 2 eexists. split; [vm_compute; reflexivity|].
  split; [vm_compute; reflexivity|].
  eexists. split; [vm_compute; reflexivity|].
  split; [vm_compute; reflexivity|].
  match goal with
  | |- Domain_global_grid_shape ?dom ?sc = mapM _ (zip ?ss [?x; ?y]) =>
      refine (proj1 (Domain_global_grid_shape_entries
                       {| dist_ident := 0; dim := 2 |}
                       [x; y] [x; y] dom sc ss _ _ _ _ _))
  end.
  - intros s Hs. apply elem_of_cons in Hs as [->|Hs].
    + apply (constructed_Interval _ Periodic 0 0 "x" 8 (0, 2 * np_pi)%Q 0 1).
      vm_compute; reflexivity.
    + apply list_elem_of_singleton in Hs as ->.
      apply (constructed_Interval _ Finite 0 0 "y" 10 (-1, 1)%Q 1 1).
      vm_compute; reflexivity.
  - intros s a Hs Ha. apply elem_of_cons in Hs as [->|Hs].
    + apply list_elem_of_singleton in Ha as ->. cbn. lia.
    + apply list_elem_of_singleton in Hs as ->.
      apply list_elem_of_singleton in Ha as ->. cbn. lia.
  - vm_compute; reflexivity.
  - vm_compute; reflexivity.
  - vm_compute; reflexivity.
Defined.

(** X11.  In a domain built from interval spaces, [constant] and [dealias]
    have one entry per axis of the distributor.  The flag of an axis is
    true exactly when no supplied space claims that axis, and then the
    dealias entry is 1; otherwise the dealias entry is that of a supplied
    space sitting on the axis. *)
Theorem Domain_constant_flags (d : Distributor) (spaces key : list Space)
    (dom : Domain) :
  (forall s, s ∈ spaces -> constructed d s) ->
  (forall s, s ∈ spaces -> Space_constant s = false) ->
  axes_in_range d spaces ->
  expand_spaces spaces = Ok key -> Domain_init key = Ok dom ->
  length (Domain_constant dom) = dim d /\
  length (Domain_dealias dom) = dim d /\
  forall p, (p < dim d)%nat ->
    exists c q,
      Domain_constant dom !! p = Some c /\
      Domain_dealias dom !! p = Some q /\
      (c = true <-> forall s, s ∈ spaces -> Z.of_nat p ∉ Space_axes s) /\
      (c = true -> q = 1%Q) /\
      (c = false ->
       exists s, s ∈ spaces /\ Space_axes s = [Z.of_nat p] /\ q = Space_dealias s).
Proof.
  intros Hc Hnc Hr Hkey Hdom.
  destruct (Domain_init_constructed d spaces key dom Hc Hr Hkey Hdom)
    as (Hd & Hsp & Hlen & Hent).
  unfold Domain_constant, Domain_dealias. rewrite Hsp, !length_map.
  split; [exact Hlen|]. split; [exact Hlen|].
  intros p Hp. rewrite !map_is_fmap, !list_lookup_fmap.
  destruct (key !! p) as [x|] eqn:Ex;
    [|apply lookup_ge_None in Ex; lia].
  exists (Space_constant x), (Space_dealias x).
  split; [reflexivity|]. split; [reflexivity|].
  destruct (Hent p x Ex) as (_ & Hax & [Hin|[-> Hfree]]).
  - rewrite (Hnc x Hin). split; [|split].
    + split; [discriminate|]. intros Hfree. exfalso.
      apply (Hfree x Hin). rewrite Hax. left.
    + discriminate.
    + intros _. exists x. now repeat split.
  - split; [|split].
    + split; [now intros _ | reflexivity].
    + reflexivity.
    + discriminate.
Qed.

Lemma Domain_constant_flags_witness :
  exists y key dom,
    FiniteInterval_init 0 0 "y" 5 (-1, 1)%Q {| dist_ident := 0; dim := 3 |} 1 (3 # 2)
    = Ok y /\
    expand_spaces [y] = Ok key /\ Domain_init key = Ok dom /\
    Domain_constant dom = [true; false; true] /\
    length (Domain_constant dom) = 3%nat /\
    length (Domain_dealias dom) = 3%nat /\
    forall p, (p < 3)%nat ->
      exists c q,
        Domain_constant dom !! p = Some c /\
        Domain_dealias dom !! p = Some q /\
        (c = true <-> forall s, s ∈ [y] -> Z.of_nat p ∉ Space_axes s) /\
        (c = true -> q = 1%Q) /\
        (c = false ->
         exists s, s ∈ [y] /\ Space_axes s = [Z.of_nat p] /\ q = Space_dealias s).
Proof.
  do 3 eexists. split; [vm_compute; reflexivity|].
  split; [vm_compute; reflexivity|].
  split; [vm_compute; reflexivity|].
  split; [reflexivity|].
  match goal with
  | |- length (Domain_constant ?dom) = _ /\ _ /\
       forall p, _ -> exists c q, _ /\ _ /\ (_ <-> forall s, s ∈ [?y] -> _) /\ _ =>
      apply (Domain_constant_flags {| dist_ident := 0; dim := 3 |}
               [y] (Domain_spaces dom) dom)
  end.
  - intros s Hs. apply list_elem_of_singleton in Hs as ->.
    apply (constructed_Interval _ Finite 0 0 "y" 5 (-1, 1)%Q 1 (3 # 2)).
    vm_compute; reflexivity.
  - intros s Hs. apply list_elem_of_singleton in Hs as ->. reflexivity.
  - intros s a Hs Ha. apply list_elem_of_singleton in Hs as ->.
    apply list_elem_of_singleton in Ha as ->. cbn. lia.
  - vm_compute; reflexivity.
  - vm_compute; reflexivity.
Defined.

(** ** Domains made of default constant spaces *)

Lemma constant_spaces_at (d : Distributor) (p : nat) :
  (p < dim d)%nat ->
  constant_spaces d !! p = Some (Constant_init d (Z.of_nat p)).
Proof.
  intros Hp. destruct (constant_spaces d !! p) as [x|] eqn:E.
  - f_equal. now apply constant_spaces_lookup.
  - apply lookup_ge_None in E. rewrite constant_spaces_length in E. lia.
Qed.

Lemma constant_spaces_elem (d : Distributor) (s : Space) :
  s ∈ constant_spaces d ->
  exists q, (q < dim d)%nat /\ s = Constant_init d (Z.of_nat q).
Proof.
  intros Hs. apply list_elem_of_lookup in Hs as [q Hq]. exists q. split.
  - apply lookup_lt_Some in Hq. now rewrite constant_spaces_length in Hq.
  - now apply constant_spaces_lookup.
Qed.

Lemma constant_spaces_fmap {A : Type} (f : Space -> A) (v : A) (d : Distributor) :
  (forall q, f (Constant_init d q) = v) ->
  f <$> constant_spaces d = replicate (dim d) v.
Proof.
  intros Hf. apply list_eq. intros p. rewrite list_lookup_fmap.
  destruct (decide (p < dim d)%nat) as [Hp|Hp].
  - rewrite constant_spaces_at, lookup_replicate_2 by exact Hp.
    cbn. now rewrite Hf.
  - rewrite (proj2 (lookup_ge_None (constant_spaces d) p))
      by (rewrite constant_spaces_length; lia).
    symmetry. apply lookup_ge_None. rewrite length_replicate. lia.
Qed.

(** The default constant spaces of a distributor with at least one axis
    are their own expansion. *)
Lemma expand_constant_spaces (d : Distributor) :
  (0 < dim d)%nat -> expand_spaces (constant_spaces d) = Ok (constant_spaces d).
Proof.
  intros Hdim.
  destruct (expand_spaces_spec d (constant_spaces d))
    as (full & Hfull & Hlen & Hlook).
  - intros E. apply (f_equal length) in E.
    rewrite constant_spaces_length in E. cbn in E. lia.
  - intros s Hs. destruct (constant_spaces_elem d s Hs) as (q & _ & ->).
    reflexivity.
  - apply pairwise_disjoint_no_common. intros i j si sj a Hi Hj Hai Haj.
    apply constant_spaces_lookup in Hi, Hj. subst. cbn in Hai, Haj.
    apply list_elem_of_singleton in Hai, Haj. lia.
  - intros s a Hs Ha. destruct (constant_spaces_elem d s Hs) as (q & Hq & ->).
    cbn in Ha. apply list_elem_of_singleton in Ha. lia.
  - rewrite Hfull. f_equal. apply list_eq. intros p.
    destruct (full !! p) as [x|] eqn:Ex.
    + assert (Hp : (p < dim d)%nat) by (apply lookup_lt_Some in Ex; lia).
      rewrite (constant_spaces_at d p Hp). f_equal.
      destruct (Hlook p x Ex) as [[Hin Hax]|[-> _]]; [|reflexivity].
      destruct (constant_spaces_elem d x Hin) as (q & _ & ->). cbn in Hax.
      apply list_elem_of_singleton in Hax. apply Nat2Z.inj in Hax. now subst.
    + symmetry. apply lookup_ge_None.
      rewrite constant_spaces_length, <- Hlen. now apply lookup_ge_None.
Qed.

(** X12.  [Domain.from_dist] on a distributor with at least one axis and an
    empty cache makes a new instance whose spaces are the default constant
    spaces themselves: every axis is flagged constant with dealias 1, the
    group shape and the coefficient shape are all ones, and so is the grid
    shape at every scale the distributor accepts. *)
Theorem Domain_from_dist_constant (d : Distributor) :
  (0 < dim d)%nat ->
  exists o,
    Domain_from_dist [] d = Ok (o, [(constant_spaces d, o)]) /\
    Domain_dist (obj o) = d /\
    Domain_spaces (obj o) = constant_spaces d /\
    Domain_constant (obj o) = replicate (dim d) true /\
    Domain_dealias (obj o) = replicate (dim d) 1%Q /\
    Domain_group_shape (obj o) = Ok (replicate (dim d) 1) /\
    Domain_global_coeff_shape (obj o) = Ok (replicate (dim d) 1) /\
    forall scales ss, remedy_scales d scales = Ok ss ->
      Domain_global_grid_shape (obj o) scales = Ok (replicate (dim d) 1).
Proof.
  intros Hdim.
  set (dom := {| Domain_dist := d; Domain_spaces := constant_spaces d |}).
  assert (Hinit : Domain_init (constant_spaces d) = Ok dom).
  { subst dom. pose proof (constant_spaces_at d 0 Hdim) as H0.
    destruct (constant_spaces d) as [|s0 rest]; [discriminate|].
    cbn in H0. injection H0 as ->. reflexivity. }
  assert (Hent : forall p x, constant_spaces d !! p = Some x ->
                   x = Constant_init d (Z.of_nat p)).
  { intros p x. apply constant_spaces_lookup. }
  exists {| obj_id := 0; obj := dom |}. cbn [obj].
  split; [|split; [reflexivity|split; [reflexivity|]]].
  { unfold Domain_from_dist, Domain_call, Domain_preprocess_args.
    rewrite (expand_constant_spaces d Hdim). cbn [mbind result_bind cache_lookup].
    rewrite Hinit. reflexivity. }
  split.
  { unfold Domain_constant. cbn [Domain_spaces dom]. rewrite map_is_fmap.
    now apply constant_spaces_fmap. }
  split.
  { unfold Domain_dealias. cbn [Domain_spaces dom]. rewrite map_is_fmap.
    now apply constant_spaces_fmap. }
  split.
  { etransitivity.
    - apply (shape_loop_by_axis Space_group_shape (fun _ => 1) d
               (constant_spaces d) dom eq_refl eq_refl (constant_spaces_length d)).
      intros p x Hx. apply Hent in Hx as ->. now split.
    - f_equal. now apply constant_spaces_fmap. }
  split.
  { etransitivity.
    - apply (shape_loop_by_axis Space_shape (fun _ => 1) d
               (constant_spaces d) dom eq_refl eq_refl (constant_spaces_length d)).
      intros p x Hx. apply Hent in Hx as ->. now split.
    - f_equal. now apply constant_spaces_fmap. }
  intros scales ss Hss. unfold Domain_global_grid_shape.
  cbn [Domain_dist dom]. rewrite Hss. cbn [mbind result_bind].
  destruct (remedy_scales_inv d scales ss Hss) as [Hl Hpos].
  rewrite (global_grid_shape_loop d (constant_spaces d) dom ss eq_refl eq_refl
             (constant_spaces_length d)); try assumption.
  - rewrite (mapM_pointwise _ (fun _ => 1)).
    + f_equal. apply list_eq. intros p. rewrite list_lookup_fmap.
      destruct (decide (p < dim d)%nat) as [Hp|Hp].
      * rewrite lookup_replicate_2 by exact Hp.
        destruct (lookup_lt_is_Some_2 ss p ltac:(lia)) as [s Es].
        assert (Hz : zip ss (constant_spaces d) !! p
                     = Some (s, Constant_init d (Z.of_nat p))).
        { apply lookup_zip_with_Some. do 2 eexists.
          split; [reflexivity|]. split; [exact Es|].
          now apply constant_spaces_at. }
        now rewrite Hz.
      * assert (Hz : zip ss (constant_spaces d) !! p = None).
        { apply lookup_ge_None. rewrite length_zip_with. lia. }
        rewrite Hz. symmetry. apply lookup_ge_None.
        rewrite length_replicate. lia.
    + intros [s x] Hin. apply list_elem_of_lookup in Hin as [p Hp].
      apply lookup_zip_with_Some in Hp as (s' & x' & [= <- <-] & _ & Hx).
      apply Hent in Hx as ->. reflexivity.
  - intros p x Hx. apply Hent in Hx as ->. split; [constructor | reflexivity].
Qed.

Lemma Domain_from_dist_constant_witness :
  exists o,
    Domain_from_dist [] {| dist_ident := 0; dim := 3 |}
    = Ok (o, [(constant_spaces {| dist_ident := 0; dim := 3 |}, o)]) /\
    Domain_constant (obj o) = [true; true; true] /\
    Domain_global_coeff_shape (obj o) = Ok [1; 1; 1].
Proof.
  destruct (Domain_from_dist_constant {| dist_ident := 0; dim := 3 |})
    as (o & H1 & _ & _ & H2 & _ & _ & H3 & _).
  - cbn. lia.
  - exists o. split; [exact H1|]. split; [exact H2 | exact H3].
Defined.

(** X13.  [Space.domain] of a constructed space on an axis of its
    distributor, with an empty cache: the new domain holds the space at its
    own axis and the default constant space at every other axis, so its
    coefficient shape is the size of the space at that axis and 1
    elsewhere. *)
Theorem Space_domain_entries (d : Distributor) (sp : Space) (ax : Z) :
  constructed d sp -> Space_axes sp = [ax] -> 0 <= ax < Z.of_nat (dim d) ->
  exists o,
    Space_domain [] sp = Ok (o, [(Domain_spaces (obj o), o)]) /\
    Domain_dist (obj o) = d /\
    Domain_spaces (obj o) = <[Z.to_nat ax := sp]> (constant_spaces d) /\
    Domain_global_coeff_shape (obj o)
    = Ok (<[Z.to_nat ax := coeff_size sp]> (replicate (dim d) 1)).
Proof.
  intros Hc Hax Hr.
  pose proof (constructed_inv d sp Hc) as (Hd & _).
  set (key := <[Z.to_nat ax := sp]> (constant_spaces d)).
  assert (Hlen : length key = dim d).
  { unfold key. now rewrite length_insert, constant_spaces_length. }
  assert (Hkey : expand_spaces [sp] = Ok key).
  { unfold expand_spaces. rewrite (unify_dist_shared d).
    - cbn [mbind result_bind length]. rewrite bool_decide_eq_false_2 by lia.
      cbn [for_each mbind result_bind]. unfold place_space. rewrite Hax.
      cbn [for_each mbind result_bind].
      rewrite setitem_in_range by (now rewrite constant_spaces_length).
      reflexivity.
    - discriminate.
    - intros s Hs. now apply list_elem_of_singleton in Hs as ->. }
  assert (Hent : forall p x, key !! p = Some x ->
                   constructed d x /\ Space_axes x = [Z.of_nat p]).
  { intros p x Hx. unfold key in Hx.
    apply list_lookup_insert_Some in Hx as [(<- & -> & _)|(Hne & Hx)].
    - split; [exact Hc|]. rewrite Hax. f_equal. lia.
    - apply constant_spaces_lookup in Hx as ->. split; [constructor|reflexivity]. }
  set (dom := {| Domain_dist := d; Domain_spaces := key |}).
  assert (Hinit : Domain_init key = Ok dom).
  { assert (H0 : exists s0, key !! 0%nat = Some s0).
    { apply lookup_lt_is_Some. lia. }
    destruct H0 as [s0 H0]. destruct (Hent 0%nat s0 H0) as [Hc0 _].
    apply constructed_inv in Hc0 as [Hd0 _]. subst dom.
    destruct key as [|s0' rest]; [discriminate|]. cbn in H0. injection H0 as ->.
    unfold Domain_init. rewrite getitem_head. cbn. now rewrite Hd0. }
  exists {| obj_id := 0; obj := dom |}. cbn [obj].
  split; [|split; [reflexivity|split; [reflexivity|]]].
  { unfold Space_domain, Domain_call, Domain_preprocess_args.
    rewrite Hkey. cbn [mbind result_bind cache_lookup]. rewrite Hinit.
    reflexivity. }
  etransitivity.
  - apply (shape_loop_by_axis Space_shape coeff_size d key dom eq_refl eq_refl Hlen).
    intros p x Hx. destruct (Hent p x Hx) as [Hcx Hpx]. split; [exact Hpx|].
    now destruct (constructed_inv d x Hcx) as (_ & ax' & _ & Hshape & _).
  - f_equal. unfold key. rewrite list_fmap_insert. f_equal.
    now apply constant_spaces_fmap.
Qed.

Lemma Space_domain_entries_witness :
  exists x o,
    PeriodicInterval_init "x" 8 (0, 2 * np_pi)%Q {| dist_ident := 0; dim := 3 |} 1 1
    = Ok x /\
    Space_domain [] x = Ok (o, [(Domain_spaces (obj o), o)]) /\
    Domain_global_coeff_shape (obj o) = Ok [1; 8; 1].
Proof.
  eexists. 
  assert (Hx : PeriodicInterval_init "x" 8 (0, 2 * np_pi)%Q
                 {| dist_ident := 0; dim := 3 |} 1 1 = Ok _)
    by (vm_compute; reflexivity).
  match type of Hx with
  | _ = Ok ?x =>
      destruct (Space_domain_entries {| dist_ident := 0; dim := 3 |} x 1)
        as (o & H1 & _ & _ & H2)
  end.
  - apply (constructed_Interval _ Periodic 0 0 "x" 8 (0, 2 * np_pi)%Q 1 1).
    exact Hx.
  - reflexivity.
  - cbn. lia.
  - exists o. split; [exact Hx|]. split; [exact H1 | exact H2].
Defined.

(** ** Named bases and weights of [FiniteInterval] *)

(** X14.  The named bases of a [FiniteInterval] with weight exponents
    [a], [b].  With [a = b = 0], [Legendre] returns what [grid_basis]
    returns and the four Chebyshev families raise the ultraspherical
    error.  With [a = b = -1/2], [ChebyshevT] returns what [grid_basis]
    returns, [ChebyshevU], [ChebyshevV], [ChebyshevW] return the Jacobi
    basis with both increments 1, 2, 3, and [Legendre] raises its error.
    With any other exponents all five raise.  So no interval offers both
    [Legendre] and a Chebyshev basis, while [grid_basis] checks nothing. *)
Theorem FiniteInterval_named_bases (B : Type)
    (basis_Jacobi : Space -> Z -> Z -> result B) (self : Interval) (a b : Q) :
  let J := basis_Jacobi (FiniteInterval self a b) in
  let legendre_error :=
    ValueError "Must use a0 = b0 = 0 for Legendre polynomials." in
  let ultraspherical_error :=
    ValueError "Must use a0 = b0 = -1/2 for Ultraspherical polynomials." in
  FiniteInterval_grid_basis B basis_Jacobi self a b = J 0 0 /\
  ((a == 0)%Q /\ (b == 0)%Q ->
   FiniteInterval_Legendre B basis_Jacobi self a b
   = FiniteInterval_grid_basis B basis_Jacobi self a b /\
   forall d, FiniteInterval_Ultraspherical B basis_Jacobi self a b d
             = Raise ultraspherical_error) /\
  ((a == - (1 # 2))%Q /\ (b == - (1 # 2))%Q ->
   FiniteInterval_Legendre B basis_Jacobi self a b = Raise legendre_error /\
   FiniteInterval_ChebyshevT B basis_Jacobi self a b
   = FiniteInterval_grid_basis B basis_Jacobi self a b /\
   FiniteInterval_ChebyshevU B basis_Jacobi self a b = J 1 1 /\
   FiniteInterval_ChebyshevV B basis_Jacobi self a b = J 2 2 /\
   FiniteInterval_ChebyshevW B basis_Jacobi self a b = J 3 3) /\
  (~ ((a == 0)%Q /\ (b == 0)%Q) ->
   FiniteInterval_Legendre B basis_Jacobi self a b = Raise legendre_error) /\
  (~ ((a == - (1 # 2))%Q /\ (b == - (1 # 2))%Q) ->
   FiniteInterval_ChebyshevT B basis_Jacobi self a b = Raise ultraspherical_error /\
   FiniteInterval_ChebyshevU B basis_Jacobi self a b = Raise ultraspherical_error /\
   FiniteInterval_ChebyshevV B basis_Jacobi self a b = Raise ultraspherical_error /\
   FiniteInterval_ChebyshevW B basis_Jacobi self a b = Raise ultraspherical_error) /\
  (FiniteInterval_Legendre B basis_Jacobi self a b = Raise legendre_error \/
   forall d, FiniteInterval_Ultraspherical B basis_Jacobi self a b d
             = Raise ultraspherical_error).
Proof.
  intros J legendre_error ultraspherical_error.
  assert (HL0 : (a == 0)%Q /\ (b == 0)%Q ->
                FiniteInterval_Legendre B basis_Jacobi self a b = J 0 0).
  { intros [Ha Hb]. unfold FiniteInterval_Legendre.
    now rewrite (Qeq_bool_true _ _ Ha), (Qeq_bool_true _ _ Hb). }
  assert (HL1 : ~ ((a == 0)%Q /\ (b == 0)%Q) ->
                FiniteInterval_Legendre B basis_Jacobi self a b
                = Raise legendre_error).
  { intros Hn. unfold FiniteInterval_Legendre.
    destruct (Qeq_bool a 0) eqn:Ea; [|reflexivity].
    destruct (Qeq_bool b 0) eqn:Eb; [|reflexivity].
    exfalso. apply Hn. split; now apply Qeq_bool_iff. }
  assert (HU0 : (a == - (1 # 2))%Q /\ (b == - (1 # 2))%Q ->
                forall d, FiniteInterval_Ultraspherical B basis_Jacobi self a b d
                          = J d d).
  { intros [Ha Hb] d. unfold FiniteInterval_Ultraspherical.
    now rewrite (Qeq_bool_true _ _ Ha), (Qeq_bool_true _ _ Hb). }
  assert (HU1 : ~ ((a == - (1 # 2))%Q /\ (b == - (1 # 2))%Q) ->
                forall d, FiniteInterval_Ultraspherical B basis_Jacobi self a b d
                          = Raise ultraspherical_error).
  { intros Hn d. unfold FiniteInterval_Ultraspherical.
    destruct (Qeq_bool a (- (1 # 2))) eqn:Ea; [|reflexivity].
    destruct (Qeq_bool b (- (1 # 2))) eqn:Eb; [|reflexivity].
    exfalso. apply Hn. split; now apply Qeq_bool_iff. }
  assert (Hex : (a == 0)%Q -> ~ (a == - (1 # 2))%Q).
  { intros H0 H1. rewrite H0 in H1. discriminate H1. }
  unfold FiniteInterval_ChebyshevT, FiniteInterval_ChebyshevU,
    FiniteInterval_ChebyshevV, FiniteInterval_ChebyshevW.
  split; [reflexivity|]. split; [|split; [|split; [|split]]].
  - intros H. split; [now apply HL0|]. apply HU1. intros [H1 _].
    now apply (Hex (proj1 H)).
  - intros H. split; [|now rewrite !HU0 by exact H].
    apply HL1. intros [H0 _]. now apply (Hex H0 (proj1 H)).
  - exact HL1.
  - intros H. now rewrite !HU1 by exact H.
  - destruct (Qeq_dec a 0) as [Ha|Ha].
    + right. apply HU1. intros [H1 _]. now apply (Hex Ha).
    + left. apply HL1. intros [H0 _]. now apply Ha.
Qed.

(** X15.  On an interval whose change of variables was built by
    construction, [FiniteInterval.weights] and [FiniteInterval.grids] read
    the same size [N = grid_shape(scales)[0]]: either both return, the
    weights for [N] points and the mapped grid of [N] points, or both
    raise the same exception. *)
Theorem FiniteInterval_weights_match_grids
    (build_grid build_weights : Z -> Q -> Q -> list Q)
    (self : Interval) (a b : Q) (scales : scales_arg) :
  ~ (AffineCOV.native_length (COV self) == 0)%Q ->
  (exists N,
     FiniteInterval_weights build_weights self a b scales
     = Ok (build_weights N a b) /\
     FiniteInterval_grids build_grid self a b scales
     = Ok (GBare (VArr (problem_image (COV self) <$> build_grid N a b)))) \/
  (exists e,
     FiniteInterval_weights build_weights self a b scales = Raise e /\
     FiniteInterval_grids build_grid self a b scales = Raise e).
Proof.
  intros Hn. unfold FiniteInterval_weights, FiniteInterval_grids.
  destruct (Interval_grid_shape self scales) as [gshape|e];
    [|right; exists e; split; reflexivity].
  cbn [mbind result_bind].
  destruct (getitem gshape 0) as [N|e];
    [|right; exists e; split; reflexivity].
  left. exists N. cbn [mbind result_bind]. split; [reflexivity|].
  rewrite problem_coord_array by exact Hn. reflexivity.
Qed.

Lemma FiniteInterval_weights_match_grids_witness :
  exists sp base,
    FiniteInterval_init 0 0 "y" 4 (0, 3)%Q {| dist_ident := 0; dim := 1 |} 0 1
    = Ok sp /\ sp = FiniteInterval base 0 0 /\
    ((exists N,
        FiniteInterval_weights (fun n _ _ => replicate (Z.to_nat n) 1%Q)
          base 0 0 (ScalesScalar (PyFloat (3 # 2)))
        = Ok (replicate (Z.to_nat N) 1%Q) /\
        FiniteInterval_grids (fun n _ _ => arange n) base 0 0 (ScalesScalar (PyFloat (3 # 2)))
        = Ok (GBare (VArr (problem_image (COV base) <$> arange N)))) \/
     (exists e,
        FiniteInterval_weights (fun n _ _ => replicate (Z.to_nat n) 1%Q)
          base 0 0 (ScalesScalar (PyFloat (3 # 2))) = Raise e /\
        FiniteInterval_grids (fun n _ _ => arange n) base 0 0 (ScalesScalar (PyFloat (3 # 2)))
        = Raise e)).
Proof.
  do 2 eexists. split; [vm_compute; reflexivity|]. split; [reflexivity|].
  apply (FiniteInterval_weights_match_grids
           (fun n _ _ => arange n) (fun n _ _ => replicate (Z.to_nat n) 1%Q)).
  vm_compute. discriminate.
Defined.

(** ** The shape check on sequences of any length *)

(** X16.  [check_shape] passes exactly when, at every position present in
    both the space shape and the group shape, the group entry is not zero
    and divides the shape entry; entries beyond the shorter sequence are
    never looked at.  When it does not pass it raises, and never anything
    but [ZeroDivisionError] or the shape error. *)
Theorem check_shape_passes_iff (group_shape space_shape : list Z) :
  (check_shape group_shape space_shape = Ok tt <->
   forall i g s, group_shape !! i = Some g -> space_shape !! i = Some s ->
                 g <> 0 /\ s mod g = 0) /\
  (check_shape group_shape space_shape = Ok tt \/
   check_shape group_shape space_shape = Raise ZeroDivisionError \/
   check_shape group_shape space_shape = Raise shape_error).
Proof.
  unfold check_shape, shape_error.
  revert group_shape.
  induction space_shape as [|s ss IH]; intros [|g gs].
  - cbn. split; [|now left]. split; [|reflexivity]. intros _ i g s H. discriminate H.
  - cbn. split; [|now left]. split; [|reflexivity]. intros _ i g' s _ H.
    discriminate H.
  - cbn. split; [|now left]. split; [|reflexivity]. intros _ i g' s' H.
    discriminate H.
  - cbn [zip zip_with for_each mbind result_bind].
    destruct (g =? 0) eqn:Eg.
    + apply Z.eqb_eq in Eg. split; [|right; now left]. split; [discriminate|].
      intros H. destruct (H 0%nat g s eq_refl eq_refl) as [Hg _]. contradiction.
    + apply Z.eqb_neq in Eg. destruct (s mod g =? 0) eqn:Em.
      * apply Z.eqb_eq in Em. cbn [negb mbind result_bind].
        destruct (IH gs) as [[IH1 IH2] IH3]. split; [|exact IH3]. split.
        -- intros H i g' s' Hg Hs. destruct i as [|i].
           ++ cbn in Hg, Hs. injection Hg as <-. injection Hs as <-. now split.
           ++ cbn in Hg, Hs. now apply (IH1 H i).
        -- intros H. apply IH2. intros i g' s' Hg Hs. now apply (H (S i)).
      * apply Z.eqb_neq in Em. cbn [negb mbind result_bind].
        split; [|right; now right]. split; [discriminate|].
        intros H. destruct (H 0%nat g s eq_refl eq_refl) as [_ Hm]. contradiction.
Qed.

(** ** Coefficient shape and group shape of a domain *)

Lemma constructed_group (d : Distributor) (sp : Space) :
  constructed d sp ->
  exists g, Space_group_shape sp = [g] /\ 0 < g /\ coeff_size sp mod g = 0.
Proof.
  intros [axis0|cls a b name0 size0 bounds0 axis0 dealias0 sp' H].
  - exists 1. cbn. repeat split; lia.
  - apply Interval_new_inv in H as (base & Hb & ->).
    apply Interval_init_inv in Hb as (Hsize & _ & _ & _ & _ & _ & _ & Hdiv).
    destruct (class_group_shape_entry cls) as (g & Hg & Hg12).
    exists g. split; [|split].
    + destruct cls; exact Hg.
    + lia.
    + specialize (Hdiv g Hg). destruct cls; cbn [coeff_size]; now rewrite Hsize.
Qed.

(** X17.  In a domain of constructed spaces, [group_shape] and
    [global_coeff_shape] both return one entry per axis of the distributor,
    and on every axis the group entry is positive and divides the
    coefficient entry: the shape check made when each interval was
    constructed carries over to the assembled domain. *)
Theorem Domain_coeff_multiple_of_group (d : Distributor)
    (spaces key : list Space) (dom : Domain) :
  (forall s, s ∈ spaces -> constructed d s) ->
  axes_in_range d spaces ->
  expand_spaces spaces = Ok key -> Domain_init key = Ok dom ->
  exists cs gs,
    Domain_global_coeff_shape dom = Ok cs /\
    Domain_group_shape dom = Ok gs /\
    length cs = dim d /\ length gs = dim d /\
    forall p n g, cs !! p = Some n -> gs !! p = Some g -> 0 < g /\ n mod g = 0.
Proof.
  intros Hc Hr Hkey Hdom.
  destruct (Domain_init_constructed d spaces key dom Hc Hr Hkey Hdom)
    as (Hd & Hsp & Hlen & Hent).
  exists (coeff_size <$> key), ((fun x => hd 0 (Space_group_shape x)) <$> key).
  split; [|split; [|split; [|split]]].
  - apply (shape_loop_by_axis Space_shape coeff_size d key dom Hd Hsp Hlen).
    intros p x Hx. destruct (Hent p x Hx) as (Hcx & Hax & _). split; [exact Hax|].
    now destruct (constructed_inv d x Hcx) as (_ & ax & _ & Hshape & _).
  - apply (shape_loop_by_axis Space_group_shape
             (fun x => hd 0 (Space_group_shape x)) d key dom Hd Hsp Hlen).
    intros p x Hx. destruct (Hent p x Hx) as (Hcx & Hax & _). split; [exact Hax|].
    destruct (constructed_group d x Hcx) as (g & Hg & _). now rewrite Hg.
  - now rewrite length_fmap.
  - now rewrite length_fmap.
  - intros p n g Hn Hg. rewrite list_lookup_fmap in Hn, Hg.
    destruct (key !! p) as [x|] eqn:Ex; [|discriminate].
    cbn in Hn, Hg. injection Hn as <-. injection Hg as <-.
    destruct (Hent p x Ex) as (Hcx & _).
    destruct (constructed_group d x Hcx) as (g & Hg & Hpos & Hdiv).
    rewrite Hg. cbn. now split.
Qed.

Lemma Domain_coeff_multiple_of_group_witness :
  exists x y dom,
    PeriodicInterval_init "x" 8 (0, 2 * np_pi)%Q {| dist_ident := 0; dim := 2 |} 0 1
    = Ok x /\
    FiniteInterval_init 0 0 "y" 5 (-1, 1)%Q {| dist_ident := 0; dim := 2 |} 1 1
    = Ok y /\
    Domain_init [x; y] = Ok dom /\
    exists cs gs,
      Domain_global_coeff_shape dom = Ok cs /\
      Domain_group_shape dom = Ok gs /\
      length cs = 2%nat /\ length gs = 2%nat /\
      forall p n g, cs !! p = Some n -> gs !! p = Some g -> 0 < g /\ n mod g = 0.
Proof.
  do 3 eexists. split; [vm_compute; reflexivity|].
  split; [vm_compute; reflexivity|].
  split; [vm_compute; reflexivity|].
  match goal with
  | |- exists cs gs, Domain_global_coeff_shape ?dom = _ /\ _ =>
      apply (Domain_coeff_multiple_of_group {| dist_ident := 0; dim := 2 |}
               (Domain_spaces dom) (Domain_spaces dom) dom)
  end.
  - intros s Hs. apply elem_of_cons in Hs as [->|Hs].
    + apply (constructed_Interval _ Periodic 0 0 "x" 8 (0, 2 * np_pi)%Q 0 1).
      vm_compute; reflexivity.
    + apply list_elem_of_singleton in Hs as ->.
      apply (constructed_Interval _ Finite 0 0 "y" 5 (-1, 1)%Q 1 1).
      vm_compute; reflexivity.
  - intros s a Hs Ha. apply elem_of_cons in Hs as [->|Hs].
    + apply list_elem_of_singleton in Ha as ->. cbn. lia.
    + apply list_elem_of_singleton in Hs as ->.
      apply list_elem_of_singleton in Ha as ->. cbn. lia.
  - vm_compute; reflexivity.
  - vm_compute; reflexivity.
Defined.
